(** * RayRenderer: ray-input selection for a three.js scene

    A shallow embedding of [src/ray-renderer.js] (class [RayRenderer]) and
    the properties its specification states about it.

    Modelling conventions.
    - JavaScript numbers are modelled as real numbers: arithmetic is exact,
      rounding is outside the model.
    - The three objects [meshes], [selected] and [handlers], "keyed on id",
      are finite maps (a finite set for [selected], whose only stored value
      is [true]) over the numeric ids of three.js objects.  A [for .. in]
      loop over such an object visits the keys that are array indices -
      the integers below 2^32 - 1, which is what the id counter of three.js
      hands out - in ascending order; [for_in] is that order.  Larger keys
      come after them in the order of their insertion, which the maps do
      not record: every statement that depends on the order in which a
      loop visits its keys assumes that the keys are array indices
      ([array_index]).
    - Host callbacks ([handlers.onSelect(mesh)]), event emission
      ([this.emit('select', mesh)]) and [console.warn] are recorded in a log
      of events, in the order in which the code performs them.  Callbacks and
      listeners are host code: they are assumed not to call back into the
      renderer while it is running.
    - An uncaught JavaScript [TypeError] is an outcome of its own, carrying
      the state as mutated up to the throw.
    - three.js is an external collaborator: the few functions of it that the
      class calls and that are more than component-wise vector arithmetic
      are the fields of the class [Three]; the ray-geometry intersection
      test is an argument of [update]. *)

From Stdlib Require Import Reals Lra.
From stdpp Require Import gmap sorting strings list.

(** ** Vectors and quaternions (the part of three.js used as plain data) *)

Record Vector2 := V2 { x2 : R; y2 : R }.
Record Vector3 := V3 { vx : R; vy : R; vz : R }.
Record Quaternion := Quat { qx : R; qy : R; qz : R; qw : R }.

Module Vector3.
(** [v.multiplyScalar(s)] *)
Definition multiplyScalar (v : Vector3) (s : R) : Vector3 :=
  V3 (vx v * s) (vy v * s) (vz v * s).
(** [v.add(w)] *)
Definition add (v w : Vector3) : Vector3 :=
  V3 (vx v + vx w) (vy v + vy w) (vz v + vz w).
(** [v.addVectors(a, b)] *)
Definition addVectors (a b : Vector3) : Vector3 :=
  V3 (vx a + vx b) (vy a + vy b) (vz a + vz b).
(** [v.length()] *)
Definition length (v : Vector3) : R :=
  sqrt (vx v * vx v + vy v * vy v + vz v * vz v).
(** [new THREE.Vector3()] *)
Definition zero : Vector3 := V3 0 0 0.
End Vector3.

(** [new THREE.Quaternion()] *)
Definition Quaternion_new : Quaternion := Quat 0 0 0 1.

(** [raycaster.ray]: the picking ray *)
Record Ray := mkRay { origin : Vector3; direction : Vector3 }.

(** ** Scene objects, handlers, intersections *)

(** A three.js object as the renderer sees it: an opaque handle read
    through [object.id]. *)
Record Object3D := mkObject3D { id : N; name : string }.

(** A host callback, identified by name. *)
Definition Callback := string.

(** The handler record passed to [add]; a missing callback is [None]. *)
Record Handlers := mkHandlers {
  onSelect : option Callback;
  onDeselect : option Callback;
  onAction : option Callback }.

(** [{}] *)
Definition no_handlers : Handlers := mkHandlers None None None.

(** One entry of the array returned by [raycaster.intersectObject]. *)
Record Intersection := mkIntersection { distance : R }.

(** [raycaster.intersectObject(mesh, true)] for the scene as it is when
    [update] runs: hits ordered by distance, nearest first. *)
Definition Intersector := Ray → Object3D → list Intersection.

(** What the component does to the outside world. *)
Inductive Slot := SlotSelect | SlotDeselect | SlotAction.

Inductive Event :=
  | Invoke (slot : Slot) (f : Callback) (arg : Object3D)
  | Emit (event : string) (arg : Object3D)
  | ConsoleWarn (message : string).

#[global] Instance Object3D_eq_dec : EqDecision Object3D.
Proof. solve_decision. Defined.
#[global] Instance Slot_eq_dec : EqDecision Slot.
Proof. solve_decision. Defined.
#[global] Instance Event_eq_dec : EqDecision Event.
Proof. solve_decision. Defined.

(** ** The three.js collaborator *)

Class Three := {
  (** a three.js camera *)
  Camera : Type;
  (** [Object3D.rotation] *)
  Euler : Type;
  (** [new THREE.Euler()] *)
  Euler_new : Euler;
  (** the ray of [new THREE.Raycaster()] *)
  Raycaster_new : Ray;
  (** [v.applyQuaternion(q)] *)
  applyQuaternion : Vector3 → Quaternion → Vector3;
  (** the ray that [raycaster.setFromCamera(coords, camera)] installs *)
  setFromCamera : Vector2 → Camera → Ray;
  (** [new THREE.ArrowHelper(dir, origin).rotation] *)
  ArrowHelper_rotation : Vector3 → Vector3 → Euler }.

(** ** Enumeration order of [for (var id in obj)] *)

Definition key_le {A} : relation (N * A) := λ a b, (a.1 ≤ b.1)%N.

#[global] Instance key_le_dec {A} : RelDecision (@key_le A).
Proof. intros a b. unfold key_le. apply _. Defined.

(** A property key that is an array index: a canonical integer below
    2^32 - 1. *)
Definition array_index (k : N) : Prop := (k < 4294967295)%N.

(** Own properties whose keys are array indices are visited in ascending
    order.  This is the order of [for (var id in this.meshes)] when every
    key of the object is an array index; keys from 2^32 - 1 on are visited
    after the array indices, in insertion order, and for them the list
    below is not the order of the loop. *)
Definition for_in {A} (m : gmap N A) : list (N * A) :=
  merge_sort key_le (map_to_list m).

(** The same for [for (var id in this.selected)], under the same proviso. *)
Definition for_in_keys (s : gset N) : list N :=
  merge_sort N.le (elements s).

Definition RETICLE_DISTANCE : R := 3.

Section RayRenderer.
Context `{three : Three}.

(** ** The state of a [RayRenderer] *)

Record RayRenderer := mkRayRenderer {
  camera : Camera;
  (** Which objects are interactive (keyed on id). *)
  meshes : gmap N Object3D;
  (** Which objects are currently selected (keyed on id). *)
  selected : gset N;
  (** Event handlers for interactive objects (keyed on id). *)
  handlers : gmap N Handlers;
  (** [this.raycaster.ray] *)
  raycaster : Ray;
  position : Vector3;
  orientation : Quaternion;
  (** [this.reticle.visible], [this.reticle.position] *)
  reticle_visible : bool;
  reticle_position : Vector3;
  (** [this.ray.visible], [this.ray.scale.y], [this.ray.rotation],
      [this.ray.position] *)
  ray_visible : bool;
  ray_scale_y : R;
  ray_rotation : Euler;
  ray_position : Vector3;
  (** How far the reticle is currently from the reticle origin. *)
  reticleDistance : R }.

Definition set_meshes (f : gmap N Object3D → gmap N Object3D) (r : RayRenderer) :=
  mkRayRenderer (camera r) (f (meshes r)) (selected r) (handlers r)
    (raycaster r) (position r) (orientation r) (reticle_visible r)
    (reticle_position r) (ray_visible r) (ray_scale_y r) (ray_rotation r)
    (ray_position r) (reticleDistance r).

Definition set_selected (f : gset N → gset N) (r : RayRenderer) :=
  mkRayRenderer (camera r) (meshes r) (f (selected r)) (handlers r)
    (raycaster r) (position r) (orientation r) (reticle_visible r)
    (reticle_position r) (ray_visible r) (ray_scale_y r) (ray_rotation r)
    (ray_position r) (reticleDistance r).

Definition set_handlers (f : gmap N Handlers → gmap N Handlers) (r : RayRenderer) :=
  mkRayRenderer (camera r) (meshes r) (selected r) (f (handlers r))
    (raycaster r) (position r) (orientation r) (reticle_visible r)
    (reticle_position r) (ray_visible r) (ray_scale_y r) (ray_rotation r)
    (ray_position r) (reticleDistance r).

Definition set_raycaster (ray : Ray) (r : RayRenderer) :=
  mkRayRenderer (camera r) (meshes r) (selected r) (handlers r)
    ray (position r) (orientation r) (reticle_visible r)
    (reticle_position r) (ray_visible r) (ray_scale_y r) (ray_rotation r)
    (ray_position r) (reticleDistance r).

Definition set_position (v : Vector3) (r : RayRenderer) :=
  mkRayRenderer (camera r) (meshes r) (selected r) (handlers r)
    (raycaster r) v (orientation r) (reticle_visible r)
    (reticle_position r) (ray_visible r) (ray_scale_y r) (ray_rotation r)
    (ray_position r) (reticleDistance r).

Definition set_orientation (q : Quaternion) (r : RayRenderer) :=
  mkRayRenderer (camera r) (meshes r) (selected r) (handlers r)
    (raycaster r) (position r) q (reticle_visible r)
    (reticle_position r) (ray_visible r) (ray_scale_y r) (ray_rotation r)
    (ray_position r) (reticleDistance r).

Definition set_reticle_visible (b : bool) (r : RayRenderer) :=
  mkRayRenderer (camera r) (meshes r) (selected r) (handlers r)
    (raycaster r) (position r) (orientation r) b
    (reticle_position r) (ray_visible r) (ray_scale_y r) (ray_rotation r)
    (ray_position r) (reticleDistance r).

Definition set_ray_visible (b : bool) (r : RayRenderer) :=
  mkRayRenderer (camera r) (meshes r) (selected r) (handlers r)
    (raycaster r) (position r) (orientation r) (reticle_visible r)
    (reticle_position r) b (ray_scale_y r) (ray_rotation r)
    (ray_position r) (reticleDistance r).

(** The four writes of [updateRaycaster_] to the owned visuals. *)
Definition set_visuals (p : Vector3) (sy : R) (rot : Euler) (rp : Vector3)
    (r : RayRenderer) :=
  mkRayRenderer (camera r) (meshes r) (selected r) (handlers r)
    (raycaster r) (position r) (orientation r) (reticle_visible r)
    p (ray_visible r) sy rot rp (reticleDistance r).

Definition set_reticleDistance (d : R) (r : RayRenderer) :=
  mkRayRenderer (camera r) (meshes r) (selected r) (handlers r)
    (raycaster r) (position r) (orientation r) (reticle_visible r)
    (reticle_position r) (ray_visible r) (ray_scale_y r) (ray_rotation r)
    (ray_position r) d.

(** ** Methods run in a state, log and exception monad *)

Inductive Outcome (A : Type) :=
  | Done (a : A) (this : RayRenderer) (log : list Event)
  | Throw (error : string) (this : RayRenderer) (log : list Event).
Arguments Done {A} a this log.
Arguments Throw {A} error this log.

Definition M (A : Type) : Type := RayRenderer → Outcome A.

Definition ret {A} (a : A) : M A := λ this, Done a this [].

Definition bind {A B} (m : M A) (k : A → M B) : M B := λ this,
  match m this with
  | Done a this1 log1 =>
      match k a this1 with
      | Done b this2 log2 => Done b this2 (log1 ++ log2)
      | Throw e this2 log2 => Throw e this2 (log1 ++ log2)
      end
  | Throw e this1 log1 => Throw e this1 log1
  end.

Notation "x <- m ;; k" := (bind m (λ x, k))
  (at level 100, m at next level, right associativity).
Notation "m ;; k" := (bind m (λ _, k))
  (at level 100, right associativity).

Definition get : M RayRenderer := λ this, Done this this [].
Definition modify (f : RayRenderer → RayRenderer) : M unit :=
  λ this, Done tt (f this) [].
Definition tell (e : Event) : M unit := λ this, Done tt this [e].
Definition throw {A} (e : string) : M A := λ this, Throw e this [].
Definition when (b : bool) (m : M unit) : M unit := if b then m else ret tt.

(** The state and the log an outcome leaves behind, thrown or not. *)
Definition state_of {A} (o : Outcome A) : RayRenderer :=
  match o with Done _ this _ | Throw _ this _ => this end.
Definition log_of {A} (o : Outcome A) : list Event :=
  match o with Done _ _ log | Throw _ _ log => log end.
Definition returns {A} (o : Outcome A) : Prop :=
  match o with Done _ _ _ => True | Throw _ _ _ => False end.

(** [handlers.onX] of a variable that may hold [undefined]. *)
Definition member {A} (handlers : option Handlers) (field : Handlers → A) : M A :=
  match handlers with
  | Some h => ret (field h)
  | None => throw "TypeError: Cannot read properties of undefined"
  end.

(** [if (f) { f(arg); }] *)
Definition call_if_present (slot : Slot) (f : option Callback) (arg : Object3D) : M unit :=
  match f with
  | Some g => tell (Invoke slot g arg)
  | None => ret tt
  end.

(** [this.emit(event, arg)] *)
Definition emit (event : string) (arg : Object3D) : M unit := tell (Emit event arg).

(** ** The class *)

(** [new RayRenderer(camera, opt_params)]; the code reads [opt_params] into
    a variable it never uses.  The reticle and the beam start as three.js
    creates them: visible, at the origin, with unit scale. *)
Definition constructor (camera : Camera) : RayRenderer :=
  {| camera := camera;
     meshes := ∅;
     selected := ∅;
     handlers := ∅;
     raycaster := Raycaster_new;
     position := Vector3.zero;
     orientation := Quaternion_new;
     reticle_visible := true;
     reticle_position := Vector3.zero;
     ray_visible := true;
     ray_scale_y := 1;
     ray_rotation := Euler_new;
     ray_position := Vector3.zero;
     reticleDistance := RETICLE_DISTANCE |}.

Definition add (object : Object3D) (opt_handlers : option Handlers) : M unit :=
  modify (set_meshes (insert (id object) object));;
  let handlers := default no_handlers opt_handlers in
  modify (set_handlers (insert (id object) handlers)).

Definition remove (object : Object3D) : M unit :=
  let id := id object in
  this <- get;;
  when (bool_decide (meshes this !! id = None))
    (modify (set_meshes (delete id));;
     modify (set_handlers (delete id)));;
  this <- get;;
  when (bool_decide (id ∈ selected this))
    (let handlers := handlers this !! id in
     f <- member handlers onDeselect;;
     call_if_present SlotDeselect f object;;
     modify (set_selected (λ s, s ∖ {[id]}))).

Definition updateRaycaster_ : M unit :=
  this <- get;;
  let ray := raycaster this in
  let position :=
    Vector3.add (Vector3.multiplyScalar (direction ray) (reticleDistance this))
                (origin ray) in
  let delta := Vector3.multiplyScalar (direction ray) (reticleDistance this) in
  modify (set_visuals position (Vector3.length delta)
            (ArrowHelper_rotation (direction ray) (origin ray))
            (Vector3.addVectors (origin ray) (Vector3.multiplyScalar delta 0.5))).

(** [moveReticle_(intersections)]; [null] is [None]. *)
Definition moveReticle_ (intersections : option (list Intersection)) : M unit :=
  distance <-
    match intersections with
    | None => ret RETICLE_DISTANCE
    | Some l =>
        match l with
        | inter :: _ => ret (distance inter)
        | [] => throw "TypeError: Cannot read properties of undefined"
        end
    end;;
  modify (set_reticleDistance distance);;
  updateRaycaster_.

(** The body of the loop of [update], for one key of [this.meshes]. *)
Definition update_mesh (intersectObject : Intersector) (id : N) (mesh : Object3D) : M unit :=
  this <- get;;
  let handlers := handlers this !! id in
  let intersects := intersectObject (raycaster this) mesh in
  let isIntersected := bool_decide (0 < length intersects) in
  let isSelected := bool_decide (id ∈ selected this) in
  when (isIntersected && negb isSelected)
    (modify (set_selected (λ s, {[id]} ∪ s));;
     f <- member handlers onSelect;;
     call_if_present SlotSelect f mesh;;
     emit "select" mesh);;
  when (negb isIntersected && isSelected)
    (modify (set_selected (λ s, s ∖ {[id]}));;
     f <- member handlers onDeselect;;
     call_if_present SlotDeselect f mesh;;
     moveReticle_ None;;
     emit "deselect" mesh);;
  when isIntersected (moveReticle_ (Some intersects)).

Fixpoint for_each {A} (l : list A) (body : A → M unit) : M unit :=
  match l with
  | [] => ret tt
  | a :: l => body a;; for_each l body
  end.

Definition update (intersectObject : Intersector) : M unit :=
  this <- get;;
  for_each (for_in (meshes this)) (λ '(id, mesh), update_mesh intersectObject id mesh).

Definition setPosition (vector : Vector3) : M unit :=
  modify (set_position vector);;
  modify (λ this, set_raycaster (mkRay vector (direction (raycaster this))) this);;
  updateRaycaster_.

Definition getOrigin : M Vector3 := this <- get;; ret (origin (raycaster this)).

Definition setOrientation (quaternion : Quaternion) : M unit :=
  modify (set_orientation quaternion);;
  let pointAt := applyQuaternion (V3 0 0 (-1)) quaternion in
  modify (λ this, set_raycaster (mkRay (origin (raycaster this)) pointAt) this);;
  updateRaycaster_.

Definition getDirection : M Vector3 := this <- get;; ret (direction (raycaster this)).

Definition setPointer (vector : Vector2) : M unit :=
  this <- get;;
  modify (set_raycaster (setFromCamera vector (camera this)));;
  updateRaycaster_.

(** The loop of [getSelectedMesh]: [count] and [mesh] after visiting [ids]. *)
Fixpoint scan_selected (this : RayRenderer) (ids : list N)
    (count : nat) (mesh : option Object3D) : nat * option Object3D :=
  match ids with
  | [] => (count, mesh)
  | id :: ids => scan_selected this ids (count + 1) (meshes this !! id)
  end.

(** [null] and [undefined] are both [None]. *)
Definition getSelectedMesh : M (option Object3D) :=
  this <- get;;
  let '(count, mesh) := scan_selected this (for_in_keys (selected this)) 0 None in
  when (bool_decide (1 < count)) (tell (ConsoleWarn "More than one mesh selected."));;
  ret mesh.

Definition setReticleVisibility (isVisible : bool) : M unit :=
  modify (set_reticle_visible isVisible).

Definition setRayVisibility (isVisible : bool) : M unit :=
  modify (set_ray_visible isVisible).

Definition setActive (isActive : bool) : M unit := ret tt.

End RayRenderer.

Arguments Done {three A} a this log.
Arguments Throw {three A} error this log.

(** ** The public interface as data, and the states a host can reach *)

Inductive Call `{three : Three} :=
  | Add (object : Object3D) (opt_handlers : option Handlers)
  | Remove (object : Object3D)
  | Update (intersectObject : Intersector)
  | SetPosition (vector : Vector3)
  | GetOrigin
  | SetOrientation (quaternion : Quaternion)
  | GetDirection
  | SetPointer (vector : Vector2)
  | GetReticleRayMesh
  | GetSelectedMesh
  | SetReticleVisibility (isVisible : bool)
  | SetRayVisibility (isVisible : bool)
  | SetActive (isActive : bool).

Section Reachable.
Context `{three : Three}.

(** The state a call leaves behind, whether it returned or threw. *)
Definition after (c : Call) (this : RayRenderer) : RayRenderer :=
  match c with
  | Add object opt_handlers => state_of (add object opt_handlers this)
  | Remove object => state_of (remove object this)
  | Update intersectObject => state_of (update intersectObject this)
  | SetPosition vector => state_of (setPosition vector this)
  | GetOrigin => state_of (getOrigin this)
  | SetOrientation quaternion => state_of (setOrientation quaternion this)
  | GetDirection => state_of (getDirection this)
  | SetPointer vector => state_of (setPointer vector this)
  | GetReticleRayMesh => this
  | GetSelectedMesh => state_of (getSelectedMesh this)
  | SetReticleVisibility isVisible => state_of (setReticleVisibility isVisible this)
  | SetRayVisibility isVisible => state_of (setRayVisibility isVisible this)
  | SetActive isActive => state_of (setActive isActive this)
  end.

(** The renderer built by [new RayRenderer(camera)] and then driven
    through its methods. *)
Inductive reachable (cam : Camera) : RayRenderer → Prop :=
  | reachable_new : reachable cam (constructor cam)
  | reachable_call c this :
      reachable cam this → reachable cam (after c this).

(** Selected ids are registered, and the two registry mappings have the
    same keys. *)
Definition consistent (this : RayRenderer) : Prop :=
  selected this ⊆ dom (meshes this) ∧ dom (meshes this) = dom (handlers this).

(** Every object is stored under its own id. *)
Definition keyed (this : RayRenderer) : Prop :=
  ∀ k o, meshes this !! k = Some o → id o = k.

(** The state after [this.reticleDistance = distance; this.updateRaycaster_()]. *)
Definition refocus (d : R) (this : RayRenderer) : RayRenderer :=
  let ray := raycaster this in
  let delta := Vector3.multiplyScalar (direction ray) d in
  set_visuals (Vector3.add delta (origin ray)) (Vector3.length delta)
    (ArrowHelper_rotation (direction ray) (origin ray))
    (Vector3.addVectors (origin ray) (Vector3.multiplyScalar delta 0.5))
    (set_reticleDistance d this).

(** The events of [if (f) f(arg); this.emit(event, arg)]. *)
Definition notify (slot : Slot) (f : option Callback) (event : string)
    (arg : Object3D) : list Event :=
  match f with
  | Some g => [Invoke slot g arg; Emit event arg]
  | None => [Emit event arg]
  end.

(** State and events of one turn of the loop of [update], when the handler
    record of the key exists. *)
Definition turn (scene : Intersector) (k : N) (mesh : Object3D)
    (this : RayRenderer) : RayRenderer * list Event :=
  let h := default no_handlers (handlers this !! k) in
  match scene (raycaster this) mesh with
  | i :: _ =>
      if decide (k ∈ selected this)
      then (refocus (distance i) this, [])
      else (refocus (distance i) (set_selected (λ s, {[k]} ∪ s) this),
            notify SlotSelect (onSelect h) "select" mesh)
  | [] =>
      if decide (k ∈ selected this)
      then (refocus RETICLE_DISTANCE (set_selected (λ s, s ∖ {[k]}) this),
            notify SlotDeselect (onDeselect h) "deselect" mesh)
      else (this, [])
  end.

Fixpoint turns (scene : Intersector) (l : list (N * Object3D))
    (this : RayRenderer) : RayRenderer * list Event :=
  match l with
  | [] => (this, [])
  | (k, mesh) :: l =>
      let r1 := turn scene k mesh this in
      let r2 := turns scene l r1.1 in
      (r2.1, r1.2 ++ r2.2)
  end.

(** The remaining methods touch neither the registry nor the selection. *)
Definition same_registry (this this' : RayRenderer) : Prop :=
  camera this' = camera this ∧ meshes this' = meshes this ∧
  selected this' = selected this ∧ handlers this' = handlers this.

(** The host calling [update()] frame after frame, the scene being what
    it is at each frame. *)
Definition update_cycles (scenes : list Intersector) : M unit :=
  for_each scenes update.

End Reachable.

(** ** The notifications about one object *)

(** The four notifications an object can receive. *)
Inductive Sym := CallSelect | EmitSelect | CallDeselect | EmitDeselect.

#[global] Instance Sym_eq_dec : EqDecision Sym.
Proof. solve_decision. Defined.

(** [handlers.onSelect(o)], [emit('select', o)], [handlers.onDeselect(o)]
    and [emit('deselect', o)] are the notifications about [o]. *)
Definition classify (o : Object3D) (e : Event) : option Sym :=
  match e with
  | Invoke SlotSelect _ a => if decide (a = o) then Some CallSelect else None
  | Invoke SlotDeselect _ a => if decide (a = o) then Some CallDeselect else None
  | Invoke SlotAction _ _ => None
  | Emit event a =>
      if decide (a = o) then
        if decide (event = "select") then Some EmitSelect
        else if decide (event = "deselect") then Some EmitDeselect
        else None
      else None
  | ConsoleWarn _ => None
  end.

Definition view (o : Object3D) (log : list Event) : list Sym :=
  omap (classify o) log.

(** How often a notification about [o] fires in a log. *)
Definition firings (o : Object3D) (s : Sym) (log : list Event) : nat :=
  count_occ Sym_eq_dec (view o log) s.

(** Where an object stands between its notifications: the two settled
    phases are the two values of its selected flag; the other two lie
    between a callback and the emission that follows it. *)
Inductive Phase := Unselected | Selecting | Selected | Deselecting.

Definition phase_of (flag : bool) : Phase :=
  if flag then Selected else Unselected.

Definition phase_step (h : Handlers) (q : Phase) (s : Sym) : option Phase :=
  match q, s with
  | Unselected, CallSelect => if onSelect h is Some _ then Some Selecting else None
  | Unselected, EmitSelect => if onSelect h is Some _ then None else Some Selected
  | Selecting, EmitSelect => Some Selected
  | Selected, CallDeselect => if onDeselect h is Some _ then Some Deselecting else None
  | Selected, EmitDeselect => if onDeselect h is Some _ then None else Some Unselected
  | Deselecting, EmitDeselect => Some Unselected
  | _, _ => None
  end.

Fixpoint phase_run (h : Handlers) (q : Phase) (u : list Sym) : option Phase :=
  match u with
  | [] => Some q
  | s :: u =>
      match phase_step h q s with
      | Some q' => phase_run h q' u
      | None => None
      end
  end.

(** Whether a notification can fire at all under a handler record. *)
Definition fires (h : Handlers) (s : Sym) : bool :=
  match s with
  | CallSelect => if onSelect h is Some _ then true else false
  | CallDeselect => if onDeselect h is Some _ then true else false
  | EmitSelect | EmitDeselect => true
  end.

(** ** A test double for three.js and a small scene *)

Module Double.

(** [Vector3.applyQuaternion] as three.js computes it. *)
Definition Vector3_applyQuaternion (v : Vector3) (q : Quaternion) : Vector3 :=
  let x := vx v in let y := vy v in let z := vz v in
  let ix := (qw q * x + qy q * z - qz q * y)%R in
  let iy := (qw q * y + qz q * x - qx q * z)%R in
  let iz := (qw q * z + qx q * y - qy q * x)%R in
  let iw := (- qx q * x - qy q * y - qz q * z)%R in
  V3 (ix * qw q + iw * - qx q + iy * - qz q - iz * - qy q)
     (iy * qw q + iw * - qy q + iz * - qx q - ix * - qz q)
     (iz * qw q + iw * - qz q + ix * - qy q - iy * - qx q).

(** Cameras are axis-aligned orthographic cameras, given by their position:
    the pointer ray starts in the camera plane and runs along -z.  Rotations
    of the beam are not tracked. *)
#[export] Instance three : Three := {|
  Camera := Vector3;
  Euler := unit;
  Euler_new := tt;
  Raycaster_new := mkRay Vector3.zero Vector3.zero;
  applyQuaternion := Vector3_applyQuaternion;
  setFromCamera := λ coords cam,
    mkRay (V3 (vx cam + x2 coords) (vy cam + y2 coords) (vz cam)) (V3 0 0 (-1));
  ArrowHelper_rotation := λ _ _, tt |}.

Definition cam0 : Camera := Vector3.zero.
Definition cam1 : Camera := V3 1 0 0.

Definition A : Object3D := mkObject3D 1 "A".
Definition B : Object3D := mkObject3D 2 "B".

Definition spies : Handlers :=
  mkHandlers (Some "selectSpy") (Some "deselectSpy") None.

(** A scene in which the ray hits exactly the objects listed, each once, at
    the distance given. *)
Definition hits (l : list (N * R)) : Intersector := λ _ object,
  match list_to_map (M := gmap N R) l !! id object with
  | Some d => [mkIntersection d]
  | None => []
  end.

(** A and B registered, the ray along -z. *)
Definition registered : RayRenderer :=
  after (SetOrientation Quaternion_new)
    (after (Add B None) (after (Add A (Some spies)) (constructor cam0))).

(** ... then a frame in which the ray hits only A, at distance 2 *)
Definition A_selected : RayRenderer := after (Update (hits [(1%N, 2%R)])) registered.

(** ... or only B, at distance 5. *)
Definition B_selected : RayRenderer := after (Update (hits [(2%N, 5%R)])) registered.

(** Four frames: A is hit twice in a row, then not, then again. *)
Definition frames : list Intersector :=
  [hits [(1%N, 2%R)]; hits [(1%N, 2%R)]; hits []; hits [(1%N, 4%R)]].

End Double.

(** ** What a cycle tells the host, and where it leaves the visuals *)

Section Cycle.
Context `{three : Three}.

(** The events one update cycle sends about the registry entry
    [(k, mesh)], judged from the state in which the cycle starts: those of
    a select transition when the ray hits the object and its id is not
    selected, those of a deselect transition when the ray misses it and its
    id is selected, none otherwise. *)
Definition notifications (scene : Intersector) (this : RayRenderer)
    (entry : N * Object3D) : list Event :=
  let h := default no_handlers (handlers this !! entry.1) in
  let isIntersected := bool_decide (scene (raycaster this) entry.2 ≠ []) in
  let isSelected := bool_decide (entry.1 ∈ selected this) in
  if isIntersected && negb isSelected
  then notify SlotSelect (onSelect h) "select" entry.2
  else if negb isIntersected && isSelected
  then notify SlotDeselect (onDeselect h) "deselect" entry.2
  else [].

(** The reticle and the beam are where [updateRaycaster_] puts them for
    the ray and the reticle distance of the state. *)
Definition visuals_derived (this : RayRenderer) : Prop :=
  let ray := raycaster this in
  let delta := Vector3.multiplyScalar (direction ray) (reticleDistance this) in
  reticle_position this = Vector3.add delta (origin ray) ∧
  ray_scale_y this = Vector3.length delta ∧
  ray_rotation this = ArrowHelper_rotation (direction ray) (origin ray) ∧
  ray_position this =
    Vector3.addVectors (origin ray) (Vector3.multiplyScalar delta 0.5).

End Cycle.

(** ** Basic facts about the methods *)

Section Facts.
Context `{three : Three}.

Lemma moveReticle__null this :
  moveReticle_ None this = Done tt (refocus RETICLE_DISTANCE this) [].
Proof. reflexivity. Qed.

Lemma moveReticle__hit i l this :
  moveReticle_ (Some (i :: l)) this = Done tt (refocus (distance i) this) [].
Proof. reflexivity. Qed.

Lemma updateRaycaster__refocus this :
  updateRaycaster_ this = Done tt (refocus (reticleDistance this) this) [].
Proof. destruct this; reflexivity. Qed.

(** One turn of the loop of [update], by cases on whether the object is hit
    and whether it was selected. *)
Lemma update_mesh_select scene k mesh this h i l :
  handlers this !! k = Some h →
  scene (raycaster this) mesh = i :: l →
  k ∉ selected this →
  update_mesh scene k mesh this =
    Done tt (refocus (distance i) (set_selected (λ s, {[k]} ∪ s) this))
      (notify SlotSelect (onSelect h) "select" mesh).
Proof.
  intros Hh Hi Hs. unfold update_mesh, bind, get. rewrite Hh, Hi. simpl.
  rewrite (bool_decide_eq_false_2 _ Hs). simpl.
  unfold notify. destruct (onSelect h); reflexivity.
Qed.

Lemma update_mesh_stay scene k mesh this i l :
  scene (raycaster this) mesh = i :: l →
  k ∈ selected this →
  update_mesh scene k mesh this = Done tt (refocus (distance i) this) [].
Proof.
  intros Hi Hs. unfold update_mesh, bind, get. rewrite Hi. simpl.
  rewrite (bool_decide_eq_true_2 _ Hs). reflexivity.
Qed.

Lemma update_mesh_deselect scene k mesh this h :
  handlers this !! k = Some h →
  scene (raycaster this) mesh = [] →
  k ∈ selected this →
  update_mesh scene k mesh this =
    Done tt (refocus RETICLE_DISTANCE (set_selected (λ s, s ∖ {[k]}) this))
      (notify SlotDeselect (onDeselect h) "deselect" mesh).
Proof.
  intros Hh Hi Hs. unfold update_mesh, bind, get. rewrite Hh, Hi. simpl.
  rewrite (bool_decide_eq_true_2 _ Hs). simpl.
  unfold notify. destruct (onDeselect h); reflexivity.
Qed.

Lemma update_mesh_idle scene k mesh this :
  scene (raycaster this) mesh = [] →
  k ∉ selected this →
  update_mesh scene k mesh this = Done tt this [].
Proof.
  intros Hi Hs. unfold update_mesh, bind, get. rewrite Hi. simpl.
  rewrite (bool_decide_eq_false_2 _ Hs). reflexivity.
Qed.

End Facts.

(** ** The enumeration order *)

Section Enumeration.
Context {A : Type}.

#[local] Instance key_le_total : Total (@key_le A).
Proof. intros a b. unfold key_le. lia. Qed.

#[local] Instance key_le_trans : Transitive (@key_le A).
Proof. intros a b c. unfold key_le. lia. Qed.

Lemma elem_of_for_in (m : gmap N A) k a :
  (k, a) ∈ for_in m ↔ m !! k = Some a.
Proof.
  unfold for_in. rewrite merge_sort_Permutation.
  apply elem_of_map_to_list.
Qed.

Lemma NoDup_for_in (m : gmap N A) : NoDup (for_in m).*1.
Proof.
  unfold for_in. rewrite merge_sort_Permutation.
  apply NoDup_fst_map_to_list.
Qed.

Lemma for_in_sorted (m : gmap N A) : StronglySorted key_le (for_in m).
Proof. apply StronglySorted_merge_sort; apply _. Qed.

(** A registered key splits the enumeration into the smaller keys, visited
    before it, and the larger ones, visited after it. *)
Lemma for_in_split (m : gmap N A) k a :
  m !! k = Some a →
  ∃ l1 l2, for_in m = l1 ++ (k, a) :: l2 ∧
    (k ∉ l1.*1) ∧ (k ∉ l2.*1) ∧
    (∀ j b, (j, b) ∈ l1 → (j < k)%N) ∧
    (∀ j b, (j, b) ∈ l2 → (k < j)%N).
Proof.
  intros Hk. apply elem_of_for_in, list_elem_of_split in Hk.
  destruct Hk as (l1 & l2 & Hl). exists l1, l2.
  pose proof (NoDup_for_in m) as Hnd. pose proof (for_in_sorted m) as Hs.
  rewrite Hl in Hnd, Hs. rewrite fmap_app, fmap_cons in Hnd. simpl in Hnd.
  apply NoDup_app in Hnd as (_ & Hd1 & Hnd).
  apply NoDup_cons in Hnd as (Hd2 & _).
  assert (k ∉ (l1.*1)) as Hk1 by (intros Hin; apply (Hd1 _ Hin); left).
  apply StronglySorted_app in Hs as (H12 & _ & Hs2).
  apply StronglySorted_cons in Hs2 as (Hs2 & _).
  repeat split; try done.
  - intros j b Hj.
    assert (j ≠ k) by (intros ->; apply Hk1, list_elem_of_fmap; by exists (k, b)).
    specialize (H12 _ _ Hj (list_elem_of_here _ _)). unfold key_le in H12.
    simpl in H12. lia.
  - intros j b Hj.
    assert (j ≠ k) by (intros ->; apply Hd2, list_elem_of_fmap; by exists (k, b)).
    rewrite Forall_forall in Hs2. specialize (Hs2 _ Hj).
    unfold key_le in Hs2. simpl in Hs2. lia.
Qed.

End Enumeration.

Lemma for_in_keys_empty : for_in_keys ∅ = [].
Proof. unfold for_in_keys. rewrite elements_empty. reflexivity. Qed.


(** ** One update cycle as a pure function *)

Section Turns.
Context `{three : Three}.

Lemma update_mesh_turn scene k mesh this :
  is_Some (handlers this !! k) →
  update_mesh scene k mesh this =
    Done tt (turn scene k mesh this).1 (turn scene k mesh this).2.
Proof.
  intros [h Hh]. unfold turn. rewrite Hh. simpl.
  destruct (scene (raycaster this) mesh) as [|i l] eqn:Hi;
    destruct (decide (k ∈ selected this)) as [Hs|Hs]; simpl.
  - by apply update_mesh_deselect.
  - by apply update_mesh_idle.
  - by eapply update_mesh_stay.
  - by eapply update_mesh_select.
Qed.

(** What a turn leaves alone. *)
Lemma turn_frame scene k mesh this :
  let this' := (turn scene k mesh this).1 in
  camera this' = camera this ∧ meshes this' = meshes this ∧
  handlers this' = handlers this ∧ raycaster this' = raycaster this.
Proof.
  unfold turn. destruct (scene _ _); destruct (decide _); simpl; done.
Qed.

Lemma turn_selected scene k mesh this j :
  j ∈ selected (turn scene k mesh this).1 ↔
    if decide (j = k) then scene (raycaster this) mesh ≠ [] else j ∈ selected this.
Proof.
  unfold turn.
  destruct (scene _ _) eqn:Hi; destruct (decide (k ∈ _)); simpl;
    destruct (decide (j = k)); set_solver.
Qed.

Lemma turns_frame scene l this :
  let this' := (turns scene l this).1 in
  camera this' = camera this ∧ meshes this' = meshes this ∧
  handlers this' = handlers this ∧ raycaster this' = raycaster this.
Proof.
  revert this. induction l as [|[k mesh] l IH]; intros this; simpl; [done|].
  destruct (IH (turn scene k mesh this).1) as (-> & -> & -> & ->).
  apply turn_frame.
Qed.

Lemma turns_selected_other scene l this j :
  j ∉ (l.*1) →
  j ∈ selected (turns scene l this).1 ↔ j ∈ selected this.
Proof.
  revert this. induction l as [|[k mesh] l IH]; intros this Hj; simpl; [done|].
  rewrite fmap_cons, not_elem_of_cons in Hj. destruct Hj as [Hjk Hj]. simpl in Hjk.
  rewrite IH by done. rewrite turn_selected. by rewrite decide_False.
Qed.

Lemma turns_app scene l1 l2 this :
  turns scene (l1 ++ l2) this =
    ((turns scene l2 (turns scene l1 this).1).1,
     (turns scene l1 this).2 ++ (turns scene l2 (turns scene l1 this).1).2).
Proof.
  revert this. induction l1 as [|[k mesh] l1 IH]; intros this; simpl.
  - by destruct (turns scene l2 this).
  - rewrite IH. simpl. by rewrite app_assoc.
Qed.

(** The loop of [update] is [turns] as long as every visited key has a
    handler record. *)
Lemma for_each_turns scene l this :
  (∀ k, k ∈ l.*1 → is_Some (handlers this !! k)) →
  for_each l (λ '(id, mesh), update_mesh scene id mesh) this =
    Done tt (turns scene l this).1 (turns scene l this).2.
Proof.
  revert this. induction l as [|[k mesh] l IH]; intros this Hh; simpl; [done|].
  unfold bind. rewrite update_mesh_turn by (apply Hh; rewrite fmap_cons; left).
  rewrite IH; [done|].
  intros j Hj. destruct (turn_frame scene k mesh this) as (_ & _ & -> & _).
  apply Hh. rewrite fmap_cons. by right.
Qed.

Lemma update_turns scene this :
  dom (meshes this) = dom (handlers this) →
  update scene this =
    Done tt (turns scene (for_in (meshes this)) this).1
            (turns scene (for_in (meshes this)) this).2.
Proof.
  intros Hd. unfold update, bind, get. rewrite for_each_turns; [done|].
  intros k Hk. apply list_elem_of_fmap in Hk as ([k' m] & -> & Hk). simpl.
  apply elem_of_for_in in Hk. apply elem_of_dom. rewrite <- Hd.
  apply elem_of_dom. eauto.
Qed.

End Turns.


(** ** The registry invariant *)

Section Invariant.
Context `{three : Three}.

Lemma consistent_constructor cam : consistent (constructor cam).
Proof. split; simpl; [set_solver|]. by rewrite !dom_empty_L. Qed.

Lemma keyed_constructor cam : keyed (constructor cam).
Proof. intros k o. simpl. by rewrite lookup_empty. Qed.

Lemma add_done object opt_handlers this :
  add object opt_handlers this =
    Done tt (set_handlers (insert (id object) (default no_handlers opt_handlers))
               (set_meshes (insert (id object) object) this)) [].
Proof. reflexivity. Qed.

Lemma consistent_add object opt_handlers this :
  consistent this → consistent (state_of (add object opt_handlers this)).
Proof.
  intros [Hs Hd]. rewrite add_done. split; simpl.
  - rewrite dom_insert_L. set_solver.
  - rewrite !dom_insert_L. by rewrite Hd.
Qed.

Lemma keyed_add object opt_handlers this :
  keyed this → keyed (state_of (add object opt_handlers this)).
Proof.
  intros Hk k o. rewrite add_done. simpl. rewrite lookup_insert.
  case_decide; [naive_solver|apply Hk].
Qed.

(** [remove] on a registered object: the first conditional is skipped. *)
Lemma remove_registered object this h :
  is_Some (meshes this !! id object) →
  handlers this !! id object = Some h →
  remove object this =
    if decide (id object ∈ selected this)
    then Done tt (set_selected (λ s, s ∖ {[id object]}) this)
           match onDeselect h with
           | Some f => [Invoke SlotDeselect f object]
           | None => []
           end
    else Done tt this [].
Proof.
  intros Hm Hh. unfold remove, bind, get.
  rewrite bool_decide_eq_false_2 by (by apply not_eq_None_Some). simpl.
  destruct (decide (id object ∈ selected this)) as [Hs|Hs].
  - rewrite (bool_decide_eq_true_2 _ Hs). simpl. rewrite Hh. simpl.
    destruct (onDeselect h); reflexivity.
  - rewrite (bool_decide_eq_false_2 _ Hs). reflexivity.
Qed.

(** [remove] on an unregistered object that is not selected: both deletes
    run, nothing else. *)
Lemma remove_unregistered object this :
  meshes this !! id object = None →
  id object ∉ selected this →
  remove object this =
    Done tt (set_handlers (delete (id object))
               (set_meshes (delete (id object)) this)) [].
Proof.
  intros Hm Hs. unfold remove, bind, get.
  rewrite (bool_decide_eq_true_2 _ Hm). simpl.
  rewrite (bool_decide_eq_false_2 _ Hs). reflexivity.
Qed.

Lemma remove_returns object this :
  consistent this → returns (remove object this).
Proof.
  intros [Hs Hd].
  destruct (meshes this !! id object) as [m|] eqn:Hm.
  - assert (is_Some (handlers this !! id object)) as [h Hh].
    { apply elem_of_dom. rewrite <- Hd. apply elem_of_dom. eauto. }
    erewrite remove_registered by eauto. by destruct (decide _).
  - rewrite remove_unregistered; [done|done|].
    intros Hin. apply Hs, elem_of_dom in Hin. rewrite Hm in Hin. by destruct Hin.
Qed.

Lemma consistent_remove object this :
  consistent this → consistent (state_of (remove object this)).
Proof.
  intros [Hs Hd].
  destruct (meshes this !! id object) as [m|] eqn:Hm.
  - assert (is_Some (handlers this !! id object)) as [h Hh].
    { apply elem_of_dom. rewrite <- Hd. apply elem_of_dom. eauto. }
    erewrite remove_registered by eauto.
    destruct (decide _); simpl; [|done]. split; simpl; [set_solver|done].
  - assert (id object ∉ selected this) as Hn.
    { intros Hin. apply Hs, elem_of_dom in Hin. rewrite Hm in Hin. by destruct Hin. }
    rewrite remove_unregistered by done.
    split; simpl; rewrite !dom_delete_L; [set_solver|by rewrite Hd].
Qed.

Lemma keyed_remove object this :
  consistent this → keyed this → keyed (state_of (remove object this)).
Proof.
  intros [Hs Hd] Hk.
  destruct (meshes this !! id object) as [m|] eqn:Hm.
  - assert (is_Some (handlers this !! id object)) as [h Hh].
    { apply elem_of_dom. rewrite <- Hd. apply elem_of_dom. eauto. }
    erewrite remove_registered by eauto. by destruct (decide _).
  - rewrite remove_unregistered; [|done|].
    + intros k o. simpl. intros Ho. apply lookup_delete_Some in Ho. naive_solver.
    + intros Hin. apply Hs, elem_of_dom in Hin. rewrite Hm in Hin. by destruct Hin.
Qed.

Lemma consistent_turns scene this :
  consistent this →
  consistent (turns scene (for_in (meshes this)) this).1.
Proof.
  intros [Hs Hd]. set (l := for_in (meshes this)).
  destruct (turns_frame scene l this) as (_ & Hm & Hh & _).
  split; [|by rewrite Hm, Hh].
  rewrite Hm. intros j Hj.
  destruct (decide (j ∈ l.*1)) as [Hin|Hin].
  - apply list_elem_of_fmap in Hin as ([k m] & -> & Hin). simpl.
    apply elem_of_for_in in Hin. apply elem_of_dom. eauto.
  - apply Hs. by apply (turns_selected_other scene l this j).
Qed.

Lemma update_returns scene this :
  consistent this → returns (update scene this).
Proof. intros [_ Hd]. by rewrite update_turns. Qed.

Lemma consistent_update scene this :
  consistent this → consistent (state_of (update scene this)).
Proof.
  intros Hc. rewrite update_turns by apply Hc. simpl.
  by apply consistent_turns.
Qed.

Lemma keyed_update scene this :
  consistent this → keyed this → keyed (state_of (update scene this)).
Proof.
  intros Hc Hk. rewrite update_turns by apply Hc. simpl.
  destruct (turns_frame scene (for_in (meshes this)) this) as (_ & Hm & _).
  unfold keyed. by rewrite Hm.
Qed.


Lemma same_registry_other c this :
  match c with Add _ _ | Remove _ | Update _ => True
  | _ => same_registry this (after c this) end.
Proof.
  destruct c; try done; simpl; try (by destruct this).
  unfold getSelectedMesh, bind, get.
  destruct (scan_selected _ _ _ _) as [count mesh]. simpl.
  unfold when. by destruct (bool_decide _).
Qed.

Lemma reachable_invariant cam this :
  reachable cam this → consistent this ∧ keyed this.
Proof.
  induction 1 as [|c this Hr [Hc Hk]].
  - split; [apply consistent_constructor|apply keyed_constructor].
  - pose proof (same_registry_other c this) as Hsame.
    destruct c; simpl in *; try (by split);
      try (destruct Hsame as (_ & Hm & Hs & Hh);
           unfold consistent, keyed; by rewrite Hm, Hs, Hh).
    + split; [by apply consistent_add|by apply keyed_add].
    + split; [by apply consistent_remove|by apply keyed_remove].
    + split; [by apply consistent_update|by apply keyed_update].
Qed.

Lemma reachable_camera cam this : reachable cam this → camera this = cam.
Proof.
  induction 1 as [|c this Hr IH]; [done|].
  pose proof (same_registry_other c this) as Hsame.
  pose proof (reachable_invariant _ _ Hr) as [Hc _].
  destruct c; cbn [after] in *; try done;
    try (by destruct Hsame as (-> & _)).
  - destruct (meshes this !! id object) as [m|] eqn:Hm.
    + assert (is_Some (handlers this !! id object)) as [h Hh].
      { apply elem_of_dom. destruct Hc as [_ <-]. apply elem_of_dom. eauto. }
      erewrite remove_registered by eauto. by destruct (decide _).
    + rewrite remove_unregistered; [done|done|].
      intros Hin. apply Hc, elem_of_dom in Hin. rewrite Hm in Hin. by destruct Hin.
  - rewrite update_turns by apply Hc. simpl.
    by destruct (turns_frame intersectObject (for_in (meshes this)) this) as (-> & _).
Qed.

End Invariant.

(** ** The example states are reachable *)

Lemma reachable_registered : reachable Double.cam0 Double.registered.
Proof. unfold Double.registered. repeat apply reachable_call. apply reachable_new. Qed.

Lemma reachable_A_selected : reachable Double.cam0 Double.A_selected.
Proof. apply reachable_call, reachable_registered. Qed.

Lemma reachable_B_selected : reachable Double.cam0 Double.B_selected.
Proof. apply reachable_call, reachable_registered. Qed.

(** The ids of A and B are array indices. *)
Lemma array_index_A_B (this : @RayRenderer Double.three) :
  meshes this = <[2%N:=Double.B]> (<[1%N:=Double.A]> ∅) →
  ∀ k, k ∈ dom (meshes this) → array_index k.
Proof.
  intros -> k Hk. apply elem_of_dom in Hk as [m Hm]. unfold array_index.
  apply lookup_insert_Some in Hm as [[<- _]|[_ Hm]]; [lia|].
  apply lookup_insert_Some in Hm as [[<- _]|[_ Hm]]; [lia|].
  by rewrite lookup_empty in Hm.
Qed.

(** ** Placement of the reticle and the beam *)

Section Placement.
Context `{three : Three}.

Lemma Vector3_add_comm v w : Vector3.add v w = Vector3.add w v.
Proof. unfold Vector3.add. f_equal; lra. Qed.

(** A vector scaled by a non-negative factor is that much longer. *)
Lemma length_multiplyScalar v s :
  (0 <= s)%R →
  Vector3.length (Vector3.multiplyScalar v s) = (Vector3.length v * s)%R.
Proof.
  intros Hs. unfold Vector3.length, Vector3.multiplyScalar. simpl.
  set (n := (vx v * vx v + vy v * vy v + vz v * vz v)%R).
  assert (0 <= n)%R as Hn.
  { pose proof (Rle_0_sqr (vx v)). pose proof (Rle_0_sqr (vy v)).
    pose proof (Rle_0_sqr (vz v)). unfold n, Rsqr in *. lra. }
  transitivity (sqrt (n * (s * s))); [f_equal; unfold n; lra|].
  rewrite sqrt_mult_alt by done. by rewrite sqrt_square.
Qed.

Lemma refocus_idem d d' this : refocus d (refocus d' this) = refocus d this.
Proof. reflexivity. Qed.

(** Without a hit a turn either does nothing or deselects. *)
Lemma turn_no_hit scene k mesh this :
  scene (raycaster this) mesh = [] →
  (turn scene k mesh this).1 =
    if decide (k ∈ selected this)
    then refocus RETICLE_DISTANCE (set_selected (λ s, s ∖ {[k]}) this)
    else this.
Proof. intros Hn. unfold turn. rewrite Hn. by destruct (decide _). Qed.

(** Keys that are neither hit nor selected leave everything as it is. *)
Lemma turns_idle scene l this :
  (∀ j m, (j, m) ∈ l → scene (raycaster this) m = [] ∧ j ∉ selected this) →
  turns scene l this = (this, []).
Proof.
  induction l as [|[k mesh] l IH]; intros Hl; simpl; [done|].
  destruct (Hl k mesh) as [Hn Hs]; [left|].
  unfold turn at 1 2. rewrite Hn. rewrite decide_False by done. simpl.
  unfold turn. rewrite Hn. rewrite decide_False by done. simpl.
  rewrite IH; [done|]. intros j m Hj. apply Hl. by right.
Qed.

(** Once the reticle sits at the default distance, turns without a hit
    keep it there. *)
Lemma turns_no_hits_settled scene l this :
  (∀ j m, (j, m) ∈ l → scene (raycaster this) m = []) →
  refocus RETICLE_DISTANCE this = this →
  refocus RETICLE_DISTANCE (turns scene l this).1 = (turns scene l this).1.
Proof.
  revert this. induction l as [|[k mesh] l IH]; intros this Hl Hset; simpl; [done|].
  apply IH.
  - intros j m Hj. destruct (turn_frame scene k mesh this) as (_ & _ & _ & ->).
    apply (Hl j). by right.
  - rewrite turn_no_hit by (apply (Hl k); left).
    destruct (decide _); [reflexivity|done].
Qed.

(** A deselect among turns without a hit leaves the reticle at the default
    distance. *)
Lemma turns_no_hits_deselect scene l this j m :
  (∀ j m, (j, m) ∈ l → scene (raycaster this) m = []) →
  (j, m) ∈ l → j ∈ selected this →
  refocus RETICLE_DISTANCE (turns scene l this).1 = (turns scene l this).1.
Proof.
  revert this. induction l as [|[k mesh] l IH]; intros this Hl Hj Hs; simpl.
  { by apply elem_of_nil in Hj. }
  assert (∀ j m, (j, m) ∈ l →
            scene (raycaster (turn scene k mesh this).1) m = []) as Hl'.
  { intros j' m' Hj'. destruct (turn_frame scene k mesh this) as (_ & _ & _ & ->).
    apply (Hl j'). by right. }
  pose proof (turn_no_hit scene k mesh this (Hl k mesh (list_elem_of_here _ _))) as Ht.
  destruct (decide (k ∈ selected this)) as [Hk|Hk].
  - apply turns_no_hits_settled; [done|]. by rewrite Ht.
  - apply elem_of_cons in Hj as [Hj|Hj]; [naive_solver|].
    apply IH; [done|done|]. by rewrite Ht.
Qed.

(** What it means for the visuals to sit at distance [d]. *)
Lemma settled_fields d this :
  refocus d this = this →
  let o := origin (raycaster this) in
  let delta := Vector3.multiplyScalar (direction (raycaster this)) d in
  reticleDistance this = d ∧
  reticle_position this = Vector3.add o delta ∧
  ray_scale_y this = Vector3.length delta ∧
  ray_rotation this = ArrowHelper_rotation (direction (raycaster this)) o ∧
  ray_position this = Vector3.add o (Vector3.multiplyScalar delta 0.5).
Proof.
  intros H. simpl. repeat split.
  - by apply (f_equal reticleDistance) in H.
  - apply (f_equal reticle_position) in H. simpl in H. rewrite <- H.
    apply Vector3_add_comm.
  - by apply (f_equal ray_scale_y) in H.
  - by apply (f_equal ray_rotation) in H.
  - by apply (f_equal ray_position) in H.
Qed.

End Placement.

Section SoleHit.
Context `{three : Three}.

(** A cycle in which the ray hits one registered object only, and nothing
    selected is visited after it, ends focused on that object. *)
Lemma turns_sole_hit scene this o hit rest :
  keyed this →
  meshes this !! id o = Some o →
  scene (raycaster this) o = hit :: rest →
  (∀ k m, meshes this !! k = Some m → m ≠ o → scene (raycaster this) m = []) →
  (∀ k, k ∈ selected this → (k ≤ id o)%N) →
  let this' := (turns scene (for_in (meshes this)) this).1 in
  refocus (distance hit) this' = this' ∧ id o ∈ selected this'.
Proof.
  intros Hkey Ho Hhit Hsole Hlater.
  destruct (for_in_split _ _ _ Ho) as (l1 & l2 & Hl & Hk1 & _ & Hlt & Hgt).
  assert (∀ j m, (j, m) ∈ l2 → meshes this !! j = Some m) as Hin2.
  { intros j m Hj. apply elem_of_for_in. rewrite Hl.
    apply elem_of_app. right. by right. }
  simpl. rewrite Hl, turns_app. simpl.
  set (s1 := (turns scene l1 this).1).
  destruct (turns_frame scene l1 this) as (_ & Hm1 & _ & Hray1). fold s1 in Hm1, Hray1.
  set (s2 := (turn scene (id o) o s1).1).
  destruct (turn_frame scene (id o) o s1) as (_ & Hm2 & _ & Hray2). fold s2 in Hm2, Hray2.
  assert (refocus (distance hit) s2 = s2) as Hset.
  { unfold s2, turn. rewrite Hray1, Hhit. by destruct (decide _). }
  assert (id o ∈ selected s2) as Hsel.
  { unfold s2. apply turn_selected. rewrite decide_True by done.
    by rewrite Hray1, Hhit. }
  rewrite turns_idle; [done|].
  intros j m Hj. pose proof (Hgt _ _ Hj) as Hjk. split.
  - rewrite Hray2, Hray1. apply (Hsole j); [by apply Hin2|].
    intros ->. apply Hin2, Hkey in Hj. lia.
  - unfold s2. rewrite turn_selected. rewrite decide_False by lia.
    unfold s1. rewrite turns_selected_other.
    + intros Hs. apply Hlater in Hs. lia.
    + intros Hin. apply list_elem_of_fmap in Hin as ([j' m'] & -> & Hin).
      apply Hlt in Hin. simpl in Hjk. lia.
Qed.

End SoleHit.

(** ** The notifications about one object *)

Lemma view_app o l1 l2 : view o (l1 ++ l2) = view o l1 ++ view o l2.
Proof. apply omap_app. Qed.

Lemma view_cons_Some o e s l :
  classify o e = Some s → view o (e :: l) = s :: view o l.
Proof. intros H. unfold view. simpl. by rewrite H. Qed.

Lemma classify_emit_select o : classify o (Emit "select" o) = Some EmitSelect.
Proof. simpl. by rewrite decide_True. Qed.

Lemma classify_emit_deselect o : classify o (Emit "deselect" o) = Some EmitDeselect.
Proof. simpl. by rewrite decide_True. Qed.

Lemma classify_call_select o f : classify o (Invoke SlotSelect f o) = Some CallSelect.
Proof. simpl. by rewrite decide_True. Qed.

Lemma classify_call_deselect o f :
  classify o (Invoke SlotDeselect f o) = Some CallDeselect.
Proof. simpl. by rewrite decide_True. Qed.

Lemma view_notify_select o f :
  view o (notify SlotSelect f "select" o) =
    if f is Some _ then [CallSelect; EmitSelect] else [EmitSelect].
Proof.
  destruct f; unfold notify.
  - erewrite !view_cons_Some;
      eauto using classify_call_select, classify_emit_select.
  - erewrite view_cons_Some; eauto using classify_emit_select.
Qed.

Lemma view_notify_deselect o f :
  view o (notify SlotDeselect f "deselect" o) =
    if f is Some _ then [CallDeselect; EmitDeselect] else [EmitDeselect].
Proof.
  destruct f; unfold notify.
  - erewrite !view_cons_Some;
      eauto using classify_call_deselect, classify_emit_deselect.
  - erewrite view_cons_Some; eauto using classify_emit_deselect.
Qed.

Lemma view_notify_other o m slot f event :
  m ≠ o → view o (notify slot f event m) = [].
Proof.
  intros Hne. unfold notify, view.
  destruct f, slot; simpl; by rewrite ?decide_False.
Qed.

Lemma phase_run_app h q u1 u2 :
  phase_run h q (u1 ++ u2) =
    match phase_run h q u1 with
    | Some q1 => phase_run h q1 u2
    | None => None
    end.
Proof.
  revert q. induction u1 as [|s u1 IH]; intros q; simpl; [done|].
  by destruct (phase_step h q s).
Qed.

(** The phases are passed in a fixed round, so between two consecutive
    firings of one notification every other one fires once - provided it
    can fire at all. *)
Lemma phase_run_between h q q' u1 u2 u3 s t :
  phase_run h q (u1 ++ s :: u2 ++ s :: u3) = Some q' →
  count_occ Sym_eq_dec u2 s = 0 →
  t ≠ s →
  count_occ Sym_eq_dec u2 t = if fires h t then 1 else 0.
Proof.
  rewrite phase_run_app. destruct (phase_run h q u1) as [q1|]; [|done].
  clear q u1. intros H Hc Ht.
  destruct h as [[cs|] [cd|] a]; destruct q1, s; simpl in H; try discriminate;
    repeat match goal with
      | H : phase_run _ _ (?u ++ _ :: _) = Some _,
        Hc : count_occ _ ?u _ = 0 |- _ =>
          destruct u as [|[] u]; simpl in H, Hc; try discriminate
      end;
    destruct t; simpl; congruence.
Qed.

Section Notifications.
Context `{three : Three}.

Lemma turn_log_congr scene k m this this' :
  handlers this !! k = handlers this' !! k →
  raycaster this = raycaster this' →
  (k ∈ selected this ↔ k ∈ selected this') →
  (turn scene k m this).2 = (turn scene k m this').2.
Proof.
  intros Hh Hr Hs. unfold turn. rewrite Hh, Hr.
  destruct (scene _ _); destruct (decide (k ∈ selected this));
    destruct (decide (k ∈ selected this')); simpl; tauto.
Qed.

Lemma turn_view_other scene k m this o :
  m ≠ o → view o (turn scene k m this).2 = [].
Proof.
  intros Hne. unfold turn.
  destruct (scene _ _); destruct (decide _); simpl;
    by rewrite ?view_notify_other.
Qed.

Lemma turns_view_other scene l this o :
  (∀ j m, (j, m) ∈ l → m ≠ o) →
  view o (turns scene l this).2 = [].
Proof.
  revert this. induction l as [|[k m] l IH]; intros this Hl; simpl; [done|].
  rewrite view_app, turn_view_other by (apply (Hl k); left).
  apply IH. intros j m' Hj. apply (Hl j). by right.
Qed.

(** One turn on the object itself moves its phase along with its flag. *)
Lemma turn_phase scene this o h :
  handlers this !! id o = Some h →
  phase_run h (phase_of (bool_decide (id o ∈ selected this)))
      (view o (turn scene (id o) o this).2)
    = Some (phase_of (bool_decide (scene (raycaster this) o ≠ []))).
Proof.
  intros Hh. unfold turn. rewrite Hh. simpl.
  destruct (scene (raycaster this) o) eqn:Hi;
    destruct (decide (id o ∈ selected this)) as [Hs|Hs]; simpl;
    rewrite ?(bool_decide_eq_true_2 _ Hs), ?(bool_decide_eq_false_2 _ Hs);
    rewrite ?view_notify_select, ?view_notify_deselect;
    try (rewrite bool_decide_eq_false_2 by (by intros []));
    try (rewrite bool_decide_eq_true_2 by done);
    simpl; try done.
  - destruct (onDeselect h) eqn:E; simpl; by rewrite E.
  - destruct (onSelect h) eqn:E; simpl; by rewrite E.
Qed.

(** A whole cycle, seen from one registered object: its notifications are
    those of its own turn, and its flag afterwards says whether it is hit. *)
Lemma turns_view_one scene this o :
  keyed this →
  meshes this !! id o = Some o →
  let r := turns scene (for_in (meshes this)) this in
  view o r.2 = view o (turn scene (id o) o this).2 ∧
  (id o ∈ selected r.1 ↔ scene (raycaster this) o ≠ []).
Proof.
  intros Hkey Ho.
  destruct (for_in_split _ _ _ Ho) as (l1 & l2 & Hl & Hk1 & Hk2 & _ & _).
  assert (∀ l, (∀ j m, (j, m) ∈ l → (j, m) ∈ for_in (meshes this)) →
            id o ∉ (l.*1) → ∀ j m, (j, m) ∈ l → m ≠ o) as Hother.
  { intros l Hsub Hnot j m Hj ->. apply Hnot.
    pose proof (Hkey _ _ (proj1 (elem_of_for_in _ _ _) (Hsub _ _ Hj))) as ->.
    apply list_elem_of_fmap. by exists (j, o). }
  simpl. rewrite Hl, turns_app. simpl.
  set (s1 := (turns scene l1 this).1).
  destruct (turns_frame scene l1 this) as (_ & _ & Hh1 & Hray1).
  fold s1 in Hh1, Hray1.
  pose proof (turns_selected_other scene l1 this (id o) Hk1) as Hs1. fold s1 in Hs1.
  split.
  - rewrite !view_app.
    rewrite (turns_view_other scene l1 this o).
    2:{ apply Hother; [|done]. intros j m Hj. rewrite Hl. apply elem_of_app. by left. }
    rewrite (turns_view_other scene l2 _ o).
    2:{ apply Hother; [|done]. intros j m Hj. rewrite Hl.
        apply elem_of_app. right. by right. }
    simpl. rewrite app_nil_r. f_equal.
    apply turn_log_congr; [by rewrite Hh1|done|done].
  - rewrite turns_selected_other by done.
    rewrite turn_selected, decide_True by done. by rewrite Hray1.
Qed.

End Notifications.

Section Cycles.
Context `{three : Three}.

(** Over any run of update cycles the notifications about a registered
    object follow the round of the phases, from its flag before the run to
    its flag after it. *)
Lemma update_cycles_phase scenes this o h :
  consistent this → keyed this →
  meshes this !! id o = Some o →
  handlers this !! id o = Some h →
  ∃ this' log,
    update_cycles scenes this = Done tt this' log ∧
    phase_run h (phase_of (bool_decide (id o ∈ selected this))) (view o log)
      = Some (phase_of (bool_decide (id o ∈ selected this'))).
Proof.
  revert this. induction scenes as [|scene scenes IH]; intros this Hc Hkey Ho Hh.
  { exists this, []. done. }
  set (r := turns scene (for_in (meshes this)) this).
  destruct (turns_frame scene (for_in (meshes this)) this) as (_ & Hm & Hhs & _).
  fold r in Hm, Hhs.
  destruct (IH r.1) as (this' & log & Hrun & Hphase).
  - by apply consistent_turns.
  - unfold keyed. by rewrite Hm.
  - by rewrite Hm.
  - by rewrite Hhs.
  - exists this', (r.2 ++ log). split.
    + unfold update_cycles in *. simpl. unfold bind.
      rewrite update_turns by apply Hc. fold r. by rewrite Hrun.
    + destruct (turns_view_one scene this o Hkey Ho) as [Hview Hflag].
      fold r in Hview, Hflag.
      rewrite view_app, phase_run_app, Hview, (turn_phase scene this o h Hh).
      rewrite <- Hphase. f_equal. f_equal. apply bool_decide_ext.
      by rewrite Hflag.
Qed.

End Cycles.

(** * The claims of the specification *)

(** ** Registry: [add] and [remove] *)

(** C6. The registry invariant - every selected id is registered, and the
    object mapping and the handler mapping have the same ids - is kept by
    [add], [remove] and [update]; from a state that satisfies it none of the
    three throws. *)
Theorem registry_invariant_preserved `{three : Three} (this : RayRenderer) :
  consistent this →
  (∀ object opt_handlers,
     returns (add object opt_handlers this) ∧
     consistent (state_of (add object opt_handlers this))) ∧
  (∀ object,
     returns (remove object this) ∧
     consistent (state_of (remove object this))) ∧
  (∀ scene,
     returns (update scene this) ∧
     consistent (state_of (update scene this))).
Proof.
  intros Hc. repeat split.
  - apply (consistent_add object opt_handlers this Hc).
  - apply (consistent_add object opt_handlers this Hc).
  - by apply remove_returns.
  - apply (consistent_remove object this Hc).
  - apply (consistent_remove object this Hc).
  - by apply update_returns.
  - apply (consistent_update scene this Hc).
  - apply (consistent_update scene this Hc).
Qed.

Lemma registry_invariant_preserved_witness :
  consistent Double.A_selected ∧
  ((∀ object opt_handlers,
      returns (add object opt_handlers Double.A_selected) ∧
      consistent (state_of (add object opt_handlers Double.A_selected))) ∧
   (∀ object,
      returns (remove object Double.A_selected) ∧
      consistent (state_of (remove object Double.A_selected))) ∧
   (∀ scene,
      returns (update scene Double.A_selected) ∧
      consistent (state_of (update scene Double.A_selected)))).
Proof.
  pose proof (reachable_invariant _ _ reachable_A_selected) as [Hc _].
  split; [exact Hc|].
  exact (registry_invariant_preserved Double.A_selected Hc).
Defined.

(** C7. Registering an object again stores the new handler record (the
    empty record when the argument is absent) under its id, in whatever
    state the renderer is: the selection is left as it was, no callback is
    invoked and nothing is emitted.  In particular the handlers of an
    earlier [add] of the same object are replaced. *)
Theorem add_again_replaces_handlers `{three : Three}
    (this : RayRenderer) (object : Object3D)
    (handlers1 handlers2 : option Handlers) :
  let again := add object handlers2 this in
  returns again ∧ log_of again = [] ∧
  handlers (state_of again) !! id object = Some (default no_handlers handlers2) ∧
  meshes (state_of again) !! id object = Some object ∧
  selected (state_of again) = selected this ∧
  (∀ k, k ≠ id object →
     handlers (state_of again) !! k = handlers this !! k ∧
     meshes (state_of again) !! k = meshes this !! k) ∧
  handlers (state_of (add object handlers2 (state_of (add object handlers1 this))))
    = handlers (state_of again).
Proof.
  cbv zeta. rewrite !add_done. simpl.
  repeat split; try done.
  - apply lookup_insert_eq.
  - apply lookup_insert_eq.
  - by apply lookup_insert_ne.
  - by apply lookup_insert_ne.
  - apply insert_insert_eq.
Qed.

(** C8. Removing an object whose id is not registered, from a state the
    host can reach, returns without throwing, invokes and emits nothing and
    leaves the whole renderer - registry and selection included - as it
    was. *)
Theorem remove_unregistered_is_noop `{three : Three}
    (cam : Camera) (this : RayRenderer) (object : Object3D) :
  reachable cam this →
  meshes this !! id object = None →
  remove object this = Done tt this [].
Proof.
  intros Hr Hm. destruct (reachable_invariant _ _ Hr) as [[Hs Hd] _].
  assert (handlers this !! id object = None) as Hh.
  { apply not_elem_of_dom. rewrite <- Hd. by apply not_elem_of_dom. }
  rewrite remove_unregistered; [|done|].
  - f_equal. destruct this; unfold set_handlers, set_meshes; simpl in *.
    by rewrite !delete_id.
  - intros Hin. apply Hs in Hin. by apply not_elem_of_dom in Hm.
Qed.

Lemma remove_unregistered_is_noop_witness :
  reachable Double.cam0 Double.A_selected ∧
  meshes Double.A_selected !! id (mkObject3D 7 "C") = None ∧
  remove (mkObject3D 7 "C") Double.A_selected = Done tt Double.A_selected [].
Proof.
  split; [exact reachable_A_selected|].
  split; [reflexivity|].
  apply (remove_unregistered_is_noop Double.cam0); [exact reachable_A_selected|].
  reflexivity.
Defined.

(** C2 (the code departs from it). [remove] deletes the two registry
    entries only under [!this.meshes[id]], that is when there is nothing to
    delete: an object that was registered is still registered, with its
    handlers, after it has been removed. *)
Theorem remove_keeps_registered_entry `{three : Three}
    (cam : Camera) (object : Object3D) (opt_handlers : option Handlers) :
  let this := state_of (add object opt_handlers (constructor cam)) in
  remove object this = Done tt this [] ∧
  meshes (state_of (remove object this)) !! id object = Some object ∧
  handlers (state_of (remove object this)) !! id object
    = Some (default no_handlers opt_handlers).
Proof.
  cbv zeta. rewrite add_done. cbn [state_of].
  set (this := set_handlers _ _).
  assert (remove object this = Done tt this []) as ->.
  { erewrite remove_registered.
    - rewrite decide_False; [done|]. simpl. set_solver.
    - simpl. rewrite lookup_insert_eq. eauto.
    - simpl. apply lookup_insert_eq. }
  repeat split; simpl; apply lookup_insert_eq.
Qed.

(** C5. Removing a registered object that is selected invokes the
    [onDeselect] handler stored for it exactly once if there is one (and
    nothing else: no other callback, no emission), takes its id out of the
    selection, and does not throw; the handler record is read from the
    registry entry, which is still in place at that point.  If no other
    object is selected, [getSelectedMesh] then returns [null], without a
    warning. *)
Theorem remove_selected_deselects `{three : Three}
    (cam : Camera) (this : RayRenderer) (object : Object3D) :
  reachable cam this →
  meshes this !! id object = Some object →
  id object ∈ selected this →
  ∃ h, handlers this !! id object = Some h ∧
    remove object this =
      Done tt (set_selected (λ s, s ∖ {[id object]}) this)
        match onDeselect h with
        | Some f => [Invoke SlotDeselect f object]
        | None => []
        end ∧
    let this' := state_of (remove object this) in
    (id object ∉ selected this') ∧
    (∀ k, k ≠ id object → (k ∈ selected this') ↔ (k ∈ selected this)) ∧
    (selected this ∖ {[id object]} = ∅ →
       getSelectedMesh this' = Done None this' []).
Proof.
  intros Hr Hm Hs. destruct (reachable_invariant _ _ Hr) as [[_ Hd] _].
  assert (is_Some (handlers this !! id object)) as [h Hh].
  { apply elem_of_dom. rewrite <- Hd. apply elem_of_dom. eauto. }
  exists h. split; [done|].
  erewrite remove_registered by eauto. rewrite decide_True by done.
  split; [done|]. simpl. repeat split.
  - set_solver.
  - set_solver.
  - set_solver.
  - intros He. unfold getSelectedMesh, bind, get. simpl.
    rewrite He, for_in_keys_empty. reflexivity.
Qed.

Lemma remove_selected_deselects_witness :
  reachable Double.cam0 Double.A_selected ∧
  meshes Double.A_selected !! id Double.A = Some Double.A ∧
  id Double.A ∈ selected Double.A_selected ∧
  ∃ h, handlers Double.A_selected !! id Double.A = Some h ∧
    remove Double.A Double.A_selected =
      Done tt (set_selected (λ s, s ∖ {[id Double.A]}) Double.A_selected)
        match onDeselect h with
        | Some f => [Invoke SlotDeselect f Double.A]
        | None => []
        end ∧
    let this' := state_of (remove Double.A Double.A_selected) in
    (id Double.A ∉ selected this') ∧
    (∀ k, k ≠ id Double.A →
       (k ∈ selected this') ↔ (k ∈ selected Double.A_selected)) ∧
    (selected Double.A_selected ∖ {[id Double.A]} = ∅ →
       getSelectedMesh this' = Done None this' []).
Proof.
  split; [exact reachable_A_selected|].
  split; [reflexivity|].
  assert (id Double.A ∈ selected Double.A_selected) as Hs.
  { change (1%N ∈ ({[1%N]} ∪ ∅ : gset N)). set_solver. }
  split; [exact Hs|].
  apply (remove_selected_deselects Double.cam0);
    [exact reachable_A_selected|reflexivity|exact Hs].
Defined.

(** ** Ray configuration *)

(** C9. [setOrientation(q)] stores [q], sets the direction of the ray to
    the vector (0, 0, -1) rotated by [q], leaves the origin alone, and
    returns with the reticle and the beam recomputed from the new
    direction: the reticle at origin + direction * reticleDistance, the
    beam as long as direction * reticleDistance, turned along the
    direction and centred half way to the reticle. *)
Theorem setOrientation_points_forward `{three : Three}
    (this : RayRenderer) (q : Quaternion) :
  ∃ this',
    setOrientation q this = Done tt this' [] ∧
    orientation this' = q ∧
    direction (raycaster this') = applyQuaternion (V3 0 0 (-1)) q ∧
    origin (raycaster this') = origin (raycaster this) ∧
    reticleDistance this' = reticleDistance this ∧
    let o := origin (raycaster this') in
    let d := direction (raycaster this') in
    let delta := Vector3.multiplyScalar d (reticleDistance this') in
    reticle_position this' = Vector3.add o delta ∧
    ray_scale_y this' = Vector3.length delta ∧
    ray_rotation this' = ArrowHelper_rotation d o ∧
    ray_position this' = Vector3.add o (Vector3.multiplyScalar delta 0.5).
Proof.
  eexists. split; [reflexivity|]. simpl. repeat split.
  unfold Vector3.add. simpl. f_equal; lra.
Qed.

(** C10. The camera of a renderer is the one given to the constructor,
    whatever has been called since; [setPointer(v)] installs the ray that
    three.js computes from [v] and that camera, and nothing else of the
    state enters it.  So two renderers, built on two cameras and driven in
    any way, get from the same [v] the rays of their own cameras: rays that
    differ exactly when the two cameras project [v] differently. *)
Theorem setPointer_uses_constructor_camera `{three : Three}
    (cam1 cam2 : Camera) (this1 this2 : RayRenderer) (v : Vector2) :
  reachable cam1 this1 →
  reachable cam2 this2 →
  raycaster (state_of (setPointer v this1)) = setFromCamera v cam1 ∧
  raycaster (state_of (setPointer v this2)) = setFromCamera v cam2 ∧
  (raycaster (state_of (setPointer v this1))
     = raycaster (state_of (setPointer v this2))
   ↔ setFromCamera v cam1 = setFromCamera v cam2) ∧
  (∀ c, camera (after c this1) = cam1) ∧
  returns (setPointer v this1).
Proof.
  intros H1 H2.
  assert (∀ cam this, reachable cam this →
            raycaster (state_of (setPointer v this)) = setFromCamera v cam) as Hray.
  { intros cam this Hr. rewrite <- (reachable_camera _ _ Hr). reflexivity. }
  rewrite (Hray _ _ H1), (Hray _ _ H2). repeat split; try done.
  intros c. apply reachable_camera. by apply reachable_call.
Qed.

Lemma setPointer_uses_constructor_camera_witness :
  reachable Double.cam0 Double.A_selected ∧
  reachable Double.cam1 (constructor Double.cam1) ∧
  raycaster (state_of (setPointer (V2 0 0) Double.A_selected))
    = setFromCamera (V2 0 0) Double.cam0 ∧
  raycaster (state_of (setPointer (V2 0 0) (constructor Double.cam1)))
    = setFromCamera (V2 0 0) Double.cam1 ∧
  (raycaster (state_of (setPointer (V2 0 0) Double.A_selected))
     = raycaster (state_of (setPointer (V2 0 0) (constructor Double.cam1)))
   ↔ setFromCamera (V2 0 0) Double.cam0 = setFromCamera (V2 0 0) Double.cam1) ∧
  (∀ c, camera (after c Double.A_selected) = Double.cam0) ∧
  returns (setPointer (V2 0 0) Double.A_selected).
Proof.
  split; [exact reachable_A_selected|].
  split; [apply reachable_new|].
  apply setPointer_uses_constructor_camera;
    [exact reachable_A_selected|apply reachable_new].
Defined.

(** ** Placement of the reticle *)

(** C4. When an update cycle deselects an object - it was selected and the
    ray no longer hits it - and the ray hits no other registered object
    either, the cycle returns with [reticleDistance] at the default 3 and
    the reticle at origin + direction * 3. *)
Theorem deselect_resets_reticle `{three : Three}
    (cam : Camera) (this : RayRenderer) (scene : Intersector) (p : Object3D) :
  reachable cam this →
  meshes this !! id p = Some p →
  id p ∈ selected this →
  scene (raycaster this) p = [] →
  (∀ k m, meshes this !! k = Some m → m ≠ p → scene (raycaster this) m = []) →
  ∃ this' log,
    update scene this = Done tt this' log ∧
    raycaster this' = raycaster this ∧
    reticleDistance this' = 3%R ∧
    reticle_position this' =
      Vector3.add (origin (raycaster this'))
        (Vector3.multiplyScalar (direction (raycaster this')) 3).
Proof.
  intros Hr Hp Hs Hn Ho. destruct (reachable_invariant _ _ Hr) as [[_ Hd] _].
  eexists _, _. split; [by apply update_turns|].
  set (l := for_in (meshes this)).
  destruct (turns_frame scene l this) as (_ & _ & _ & Hray).
  split; [done|].
  assert (refocus RETICLE_DISTANCE (turns scene l this).1 = (turns scene l this).1)
    as Hset.
  { apply (turns_no_hits_deselect scene l this (id p) p); [|by apply elem_of_for_in|done].
    intros j m Hj. apply elem_of_for_in in Hj.
    destruct (decide (m = p)) as [->|Hne]; [done|by apply (Ho j)]. }
  destruct (settled_fields _ _ Hset) as (Hdist & Hpos & _).
  split; [exact Hdist|exact Hpos].
Qed.

Lemma deselect_resets_reticle_witness :
  reachable Double.cam0 Double.B_selected ∧
  meshes Double.B_selected !! id Double.B = Some Double.B ∧
  id Double.B ∈ selected Double.B_selected ∧
  Double.hits [] (raycaster Double.B_selected) Double.B = [] ∧
  (∀ k m, meshes Double.B_selected !! k = Some m → m ≠ Double.B →
     Double.hits [] (raycaster Double.B_selected) m = []) ∧
  ∃ this' log,
    update (Double.hits []) Double.B_selected = Done tt this' log ∧
    raycaster this' = raycaster Double.B_selected ∧
    reticleDistance this' = 3%R ∧
    reticle_position this' =
      Vector3.add (origin (raycaster this'))
        (Vector3.multiplyScalar (direction (raycaster this')) 3).
Proof.
  assert (id Double.B ∈ selected Double.B_selected) as Hs.
  { change (2%N ∈ ({[2%N]} ∪ ∅ : gset N)). set_solver. }
  split; [exact reachable_B_selected|].
  split; [reflexivity|].
  split; [exact Hs|].
  split; [reflexivity|].
  split; [intros k m _ _; reflexivity|].
  apply (deselect_resets_reticle Double.cam0 Double.B_selected (Double.hits []) Double.B);
    [exact reachable_B_selected|reflexivity|exact Hs|reflexivity|].
  intros k m _ _. reflexivity.
Defined.

(** C3, as the specification states it, fails: the reticle distance is one
    number, overwritten by every turn of the loop, and a deselect that the
    loop reaches after the object that is hit puts it back to the default.
    Here A (id 1) and B (id 2) are registered, B is selected from the frame
    before, and the ray now hits A alone, at distance 2: the cycle ends
    with the reticle at distance 3. *)
Lemma sole_hit_counterexample :
  reachable Double.cam0 Double.B_selected ∧
  meshes Double.B_selected !! 1%N = Some Double.A ∧
  Double.hits [(1%N, 2%R)] (raycaster Double.B_selected) Double.A
    = [mkIntersection 2] ∧
  (∀ k m, meshes Double.B_selected !! k = Some m → m ≠ Double.A →
     Double.hits [(1%N, 2%R)] (raycaster Double.B_selected) m = []) ∧
  returns (update (Double.hits [(1%N, 2%R)]) Double.B_selected) ∧
  reticleDistance (state_of (update (Double.hits [(1%N, 2%R)]) Double.B_selected))
    = 3%R ∧
  reticle_position (state_of (update (Double.hits [(1%N, 2%R)]) Double.B_selected))
    ≠ Vector3.add (origin (raycaster Double.B_selected))
        (Vector3.multiplyScalar (direction (raycaster Double.B_selected)) 2).
Proof.
  split; [exact reachable_B_selected|].
  split; [reflexivity|].
  split; [reflexivity|].
  split.
  { intros k m Hm Hne.
    change (meshes Double.B_selected)
      with (<[2%N:=Double.B]> (<[1%N:=Double.A]> (∅ : gmap N Object3D))) in Hm.
    apply lookup_insert_Some in Hm as [[_ <-]|[_ Hm]]; [reflexivity|].
    apply lookup_insert_Some in Hm as [[_ <-]|[_ Hm]]; [done|].
    by rewrite lookup_empty in Hm. }
  split; [exact I|].
  split; [reflexivity|].
  vm_compute. intros H. injection H as _ _ H. lra.
Qed.

(** C3, amended.  Let the registered ids be array indices, so that the
    loop visits them in ascending order.  When the ray hits one registered
    object only, at nearest distance D, and no object that the loop visits
    after it (a larger id) was selected when the cycle began, the cycle
    ends with the object selected, [reticleDistance] at D, the reticle at
    origin + direction * D and the beam centred at
    origin + direction * D * 0.5 and as long as direction * D: that is D
    when the direction is a unit vector and D is not negative. *)
Theorem sole_hit_focuses_reticle `{three : Three}
    (cam : Camera) (this : RayRenderer) (scene : Intersector)
    (o : Object3D) (hit : Intersection) (rest : list Intersection) :
  reachable cam this →
  (∀ k, k ∈ dom (meshes this) → array_index k) →
  meshes this !! id o = Some o →
  scene (raycaster this) o = hit :: rest →
  (∀ k m, meshes this !! k = Some m → m ≠ o → scene (raycaster this) m = []) →
  (∀ k, k ∈ selected this → (k ≤ id o)%N) →
  ∃ this' log,
    update scene this = Done tt this' log ∧
    raycaster this' = raycaster this ∧
    id o ∈ selected this' ∧
    let D := distance hit in
    let delta := Vector3.multiplyScalar (direction (raycaster this')) D in
    reticleDistance this' = D ∧
    reticle_position this' = Vector3.add (origin (raycaster this')) delta ∧
    ray_position this' =
      Vector3.add (origin (raycaster this')) (Vector3.multiplyScalar delta 0.5) ∧
    ray_scale_y this' = Vector3.length delta ∧
    (Vector3.length (direction (raycaster this')) = 1%R → (0 <= D)%R →
       ray_scale_y this' = D).
Proof.
  intros Hr _ Ho Hhit Hsole Hlater.
  destruct (reachable_invariant _ _ Hr) as [[_ Hd] Hkey].
  eexists _, _. split; [by apply update_turns|].
  destruct (turns_frame scene (for_in (meshes this)) this) as (_ & _ & _ & Hray).
  split; [done|].
  destruct (turns_sole_hit scene this o hit rest Hkey Ho Hhit Hsole Hlater)
    as [Hset Hsel].
  split; [done|].
  destruct (settled_fields _ _ Hset) as (Hdist & Hpos & Hlen & _ & Hmid).
  cbv zeta. repeat split; try done.
  intros Hunit HD. rewrite Hlen, length_multiplyScalar by done.
  rewrite Hunit. lra.
Qed.

Lemma sole_hit_focuses_reticle_witness :
  reachable Double.cam0 Double.registered ∧
  (∀ k, k ∈ dom (meshes Double.registered) → array_index k) ∧
  meshes Double.registered !! id Double.A = Some Double.A ∧
  Double.hits [(1%N, 2%R)] (raycaster Double.registered) Double.A
    = mkIntersection 2 :: [] ∧
  (∀ k m, meshes Double.registered !! k = Some m → m ≠ Double.A →
     Double.hits [(1%N, 2%R)] (raycaster Double.registered) m = []) ∧
  (∀ k, k ∈ selected Double.registered → (k ≤ id Double.A)%N) ∧
  ∃ this' log,
    update (Double.hits [(1%N, 2%R)]) Double.registered = Done tt this' log ∧
    raycaster this' = raycaster Double.registered ∧
    id Double.A ∈ selected this' ∧
    let D := distance (mkIntersection 2) in
    let delta := Vector3.multiplyScalar (direction (raycaster this')) D in
    reticleDistance this' = D ∧
    reticle_position this' = Vector3.add (origin (raycaster this')) delta ∧
    ray_position this' =
      Vector3.add (origin (raycaster this')) (Vector3.multiplyScalar delta 0.5) ∧
    ray_scale_y this' = Vector3.length delta ∧
    (Vector3.length (direction (raycaster this')) = 1%R → (0 <= D)%R →
       ray_scale_y this' = D).
Proof.
  assert (∀ k m, meshes Double.registered !! k = Some m → m ≠ Double.A →
     Double.hits [(1%N, 2%R)] (raycaster Double.registered) m = []) as Hsole.
  { intros k m Hm Hne.
    change (meshes Double.registered)
      with (<[2%N:=Double.B]> (<[1%N:=Double.A]> (∅ : gmap N Object3D))) in Hm.
    apply lookup_insert_Some in Hm as [[_ <-]|[_ Hm]]; [reflexivity|].
    apply lookup_insert_Some in Hm as [[_ <-]|[_ Hm]]; [done|].
    by rewrite lookup_empty in Hm. }
  assert (∀ k, k ∈ selected Double.registered → (k ≤ id Double.A)%N) as Hlater.
  { intros k Hk. change (k ∈ (∅ : gset N)) in Hk. set_solver. }
  pose proof (array_index_A_B Double.registered eq_refl) as Hidx.
  split; [exact reachable_registered|].
  split; [exact Hidx|].
  split; [reflexivity|].
  split; [reflexivity|].
  split; [exact Hsole|].
  split; [exact Hlater|].
  exact (sole_hit_focuses_reticle Double.cam0 Double.registered
           (Double.hits [(1%N, 2%R)]) Double.A (mkIntersection 2) []
           reachable_registered Hidx eq_refl eq_refl Hsole Hlater).
Defined.

(** ** The selection state machine *)

(** C1. Take a registered object, with its handler record, and any run of
    update cycles from a state the host can reach.  The run returns, and in
    the log of what it did
    - between two consecutive ['deselect'] emissions for the object there is
      exactly one ['select'] emission for it, and exactly one [onSelect]
      call if the record has that callback (none if it has not);
    - the same holds between two consecutive [onDeselect] calls;
    - between two consecutive ['select'] emissions there is a ['deselect']
      emission: no select is repeated without one.
    And a cycle that finds the object selected and still hit sends it no
    select notification and leaves it selected. *)
Theorem select_fires_once_per_deselect `{three : Three}
    (cam : Camera) (this : RayRenderer) (o : Object3D) (h : Handlers)
    (scenes : list Intersector) :
  reachable cam this →
  meshes this !! id o = Some o →
  handlers this !! id o = Some h →
  (∃ this' log,
    update_cycles scenes this = Done tt this' log ∧
    (∀ l1 l2 l3,
       log = l1 ++ Emit "deselect" o :: l2 ++ Emit "deselect" o :: l3 →
       firings o EmitDeselect l2 = 0 →
       firings o EmitSelect l2 = 1 ∧
       firings o CallSelect l2 = if onSelect h is Some _ then 1 else 0) ∧
    (∀ f f' l1 l2 l3,
       log = l1 ++ Invoke SlotDeselect f o :: l2 ++ Invoke SlotDeselect f' o :: l3 →
       firings o CallDeselect l2 = 0 →
       firings o EmitSelect l2 = 1 ∧
       firings o CallSelect l2 = if onSelect h is Some _ then 1 else 0) ∧
    (∀ l1 l2 l3,
       log = l1 ++ Emit "select" o :: l2 ++ Emit "select" o :: l3 →
       firings o EmitSelect l2 = 0 →
       firings o EmitDeselect l2 = 1)) ∧
  (∀ scene,
     id o ∈ selected this →
     scene (raycaster this) o ≠ [] →
     returns (update scene this) ∧
     firings o EmitSelect (log_of (update scene this)) = 0 ∧
     firings o CallSelect (log_of (update scene this)) = 0 ∧
     id o ∈ selected (state_of (update scene this))).
Proof.
  intros Hr Ho Hh. destruct (reachable_invariant _ _ Hr) as [Hc Hkey]. split.
  - destruct (update_cycles_phase scenes this o h Hc Hkey Ho Hh)
      as (this' & log & Hrun & Hphase).
    exists this', log. split; [done|].
    assert (∀ e e' s l1 l2 l3 t,
              classify o e = Some s → classify o e' = Some s →
              log = l1 ++ e :: l2 ++ e' :: l3 →
              firings o s l2 = 0 → t ≠ s →
              firings o t l2 = if fires h t then 1 else 0) as Hbetween.
    { intros e e' s l1 l2 l3 t He He' -> H0 Ht.
      rewrite view_app, (view_cons_Some _ _ _ _ He), view_app,
        (view_cons_Some _ _ _ _ He') in Hphase.
      by eapply phase_run_between. }
    split; [|split].
    + intros l1 l2 l3 Hlog H0.
      pose proof (Hbetween _ _ _ _ _ _ EmitSelect (classify_emit_deselect o)
                    (classify_emit_deselect o) Hlog H0) as H1.
      pose proof (Hbetween _ _ _ _ _ _ CallSelect (classify_emit_deselect o)
                    (classify_emit_deselect o) Hlog H0) as H2.
      split; [by apply H1|]. rewrite H2 by done. simpl. by destruct (onSelect h).
    + intros f f' l1 l2 l3 Hlog H0.
      pose proof (Hbetween _ _ _ _ _ _ EmitSelect (classify_call_deselect o f)
                    (classify_call_deselect o f') Hlog H0) as H1.
      pose proof (Hbetween _ _ _ _ _ _ CallSelect (classify_call_deselect o f)
                    (classify_call_deselect o f') Hlog H0) as H2.
      split; [by apply H1|]. rewrite H2 by done. simpl. by destruct (onSelect h).
    + intros l1 l2 l3 Hlog H0.
      by apply (Hbetween _ _ _ _ _ _ EmitDeselect (classify_emit_select o)
                  (classify_emit_select o) Hlog H0).
  - intros scene Hs Hhit.
    rewrite update_turns by apply Hc. simpl.
    destruct (turns_view_one scene this o Hkey Ho) as [Hview Hflag].
    assert (view o (turn scene (id o) o this).2 = []) as Hnil.
    { unfold turn. destruct (scene (raycaster this) o); [done|].
      by rewrite decide_True. }
    unfold firings. rewrite Hview, Hnil. repeat split. by apply Hflag.
Qed.

Lemma select_fires_once_per_deselect_witness :
  reachable Double.cam0 Double.registered ∧
  meshes Double.registered !! id Double.A = Some Double.A ∧
  handlers Double.registered !! id Double.A = Some Double.spies ∧
  (∃ this' log,
    update_cycles Double.frames Double.registered = Done tt this' log ∧
    (∀ l1 l2 l3,
       log = l1 ++ Emit "deselect" Double.A :: l2 ++ Emit "deselect" Double.A :: l3 →
       firings Double.A EmitDeselect l2 = 0 →
       firings Double.A EmitSelect l2 = 1 ∧
       firings Double.A CallSelect l2
         = if onSelect Double.spies is Some _ then 1 else 0) ∧
    (∀ f f' l1 l2 l3,
       log = l1 ++ Invoke SlotDeselect f Double.A :: l2
                ++ Invoke SlotDeselect f' Double.A :: l3 →
       firings Double.A CallDeselect l2 = 0 →
       firings Double.A EmitSelect l2 = 1 ∧
       firings Double.A CallSelect l2
         = if onSelect Double.spies is Some _ then 1 else 0) ∧
    (∀ l1 l2 l3,
       log = l1 ++ Emit "select" Double.A :: l2 ++ Emit "select" Double.A :: l3 →
       firings Double.A EmitSelect l2 = 0 →
       firings Double.A EmitDeselect l2 = 1)) ∧
  (∀ scene,
     id Double.A ∈ selected Double.registered →
     scene (raycaster Double.registered) Double.A ≠ [] →
     returns (update scene Double.registered) ∧
     firings Double.A EmitSelect (log_of (update scene Double.registered)) = 0 ∧
     firings Double.A CallSelect (log_of (update scene Double.registered)) = 0 ∧
     id Double.A ∈ selected (state_of (update scene Double.registered))).
Proof.
  split; [exact reachable_registered|].
  split; [reflexivity|].
  split; [reflexivity|].
  exact (select_fires_once_per_deselect Double.cam0 Double.registered Double.A
           Double.spies Double.frames reachable_registered eq_refl eq_refl).
Defined.

(** ** The scenarios of the specification, run on the model *)

(** A is registered with spies and the ray hits it at distance 2:
    [onSelect(A)] is called once, ['select'] is emitted, and the reticle
    distance is 2. *)
Example scenario_select :
  log_of (update (Double.hits [(1%N, 2%R)]) Double.registered)
    = [Invoke SlotSelect "selectSpy" Double.A; Emit "select" Double.A] ∧
  reticleDistance Double.A_selected = 2%R.
Proof. split; reflexivity. Qed.

(** The same ray for another frame: nothing is notified. *)
Example scenario_still_selected :
  log_of (update (Double.hits [(1%N, 2%R)]) Double.A_selected) = [].
Proof. reflexivity. Qed.

(** The ray leaves A: [onDeselect(A)] is called once, ['deselect'] is
    emitted, and the reticle distance is back at 3. *)
Example scenario_deselect :
  log_of (update (Double.hits []) Double.A_selected)
    = [Invoke SlotDeselect "deselectSpy" Double.A; Emit "deselect" Double.A] ∧
  reticleDistance (state_of (update (Double.hits []) Double.A_selected)) = 3%R.
Proof. split; reflexivity. Qed.

(** The four frames of [Double.frames] in a row. *)
Example scenario_frames :
  log_of (update_cycles Double.frames Double.registered)
    = [Invoke SlotSelect "selectSpy" Double.A; Emit "select" Double.A;
       Invoke SlotDeselect "deselectSpy" Double.A; Emit "deselect" Double.A;
       Invoke SlotSelect "selectSpy" Double.A; Emit "select" Double.A].
Proof. reflexivity. Qed.

(** A is removed while selected: [onDeselect(A)] is called, and
    [getSelectedMesh] then returns [null]; A is still in the registry. *)
Example scenario_remove_selected :
  log_of (remove Double.A Double.A_selected)
    = [Invoke SlotDeselect "deselectSpy" Double.A] ∧
  (∃ this' log,
     getSelectedMesh (state_of (remove Double.A Double.A_selected))
       = Done None this' log) ∧
  meshes (state_of (remove Double.A Double.A_selected)) !! 1%N = Some Double.A.
Proof.
  split; [reflexivity|]. split; [|reflexivity].
  eexists _, _. reflexivity.
Qed.

(** Two objects selected at once: [getSelectedMesh] returns the one with
    the larger id and warns. *)
Example scenario_two_selected :
  ∃ this',
    getSelectedMesh
      (state_of (update (Double.hits [(1%N, 2%R); (2%N, 5%R)]) Double.registered))
    = Done (Some Double.B) this' [ConsoleWarn "More than one mesh selected."].
Proof. eexists. reflexivity. Qed.

(** * Further properties of the class *)

(** ** One update cycle *)

Section CycleFacts.
Context `{three : Three}.

(** A turn leaves alone whatever is not selection, reticle or beam. *)
Lemma turn_frame_pose scene k mesh this :
  let this' := (turn scene k mesh this).1 in
  position this' = position this ∧ orientation this' = orientation this ∧
  reticle_visible this' = reticle_visible this ∧
  ray_visible this' = ray_visible this.
Proof.
  unfold turn. destruct (scene _ _); destruct (decide _); simpl; done.
Qed.

Lemma turns_frame_pose scene l this :
  let this' := (turns scene l this).1 in
  position this' = position this ∧ orientation this' = orientation this ∧
  reticle_visible this' = reticle_visible this ∧
  ray_visible this' = ray_visible this.
Proof.
  revert this. induction l as [|[k mesh] l IH]; intros this; simpl; [done|].
  destruct (IH (turn scene k mesh this).1) as (-> & -> & -> & ->).
  apply turn_frame_pose.
Qed.

(** The events of a turn are the notifications about its entry. *)
Lemma turn_notifications scene k mesh this :
  (turn scene k mesh this).2 = notifications scene this (k, mesh).
Proof.
  unfold turn, notifications. simpl.
  destruct (scene (raycaster this) mesh) eqn:Hi;
    destruct (decide (k ∈ selected this)) as [Hs|Hs];
    rewrite ?(bool_decide_eq_true_2 _ Hs), ?(bool_decide_eq_false_2 _ Hs);
    try (rewrite (bool_decide_eq_false_2 ([] ≠ [])) by (by intros []));
    try (rewrite bool_decide_eq_true_2 by done);
    reflexivity.
Qed.

Lemma notifications_congr scene this this' k mesh :
  handlers this !! k = handlers this' !! k →
  raycaster this = raycaster this' →
  (k ∈ selected this ↔ k ∈ selected this') →
  notifications scene this (k, mesh) = notifications scene this' (k, mesh).
Proof.
  intros Hh Hr Hs. unfold notifications. simpl. rewrite Hh, Hr.
  by rewrite (bool_decide_ext _ _ Hs).
Qed.

(** With every key visited once, each turn finds the flag of its key as the
    cycle found it. *)
Lemma turns_notifications scene l this :
  NoDup (l.*1) →
  (turns scene l this).2 = l ≫= notifications scene this.
Proof.
  revert this. induction l as [|[k mesh] l IH]; intros this Hnd; simpl; [done|].
  rewrite fmap_cons in Hnd. apply NoDup_cons in Hnd as [Hk Hnd]. simpl in Hk.
  rewrite turn_notifications, IH by done. f_equal.
  destruct (turn_frame scene k mesh this) as (_ & _ & Hh & Hr).
  apply Forall_bind_ext, Forall_forall. intros [j m] Hj.
  apply notifications_congr; [by rewrite Hh|done|].
  rewrite turn_selected. rewrite decide_False; [done|].
  intros ->. apply Hk, list_elem_of_fmap. by exists (k, m).
Qed.

(** After the loop an id is selected if its object is hit, if it is
    registered; an id that is not registered keeps its flag. *)
Lemma turns_selected scene this k :
  keyed this →
  k ∈ selected (turns scene (for_in (meshes this)) this).1 ↔
    match meshes this !! k with
    | Some m => scene (raycaster this) m ≠ []
    | None => k ∈ selected this
    end.
Proof.
  intros Hkey. destruct (meshes this !! k) as [m|] eqn:Hm.
  - pose proof (Hkey _ _ Hm) as <-.
    by destruct (turns_view_one scene this m Hkey Hm) as [_ ?].
  - apply turns_selected_other. intros Hin.
    apply list_elem_of_fmap in Hin as ([j m] & -> & Hin).
    apply elem_of_for_in in Hin. simpl in Hm. congruence.
Qed.

End CycleFacts.

Section CycleMore.
Context `{three : Three}.

Lemma bind_all_nil {A B} (f : A → list B) (l : list A) :
  (∀ x, x ∈ l → f x = []) → l ≫= f = [].
Proof.
  induction l as [|a l IH]; intros Hl; simpl; [done|].
  rewrite (Hl a) by left. apply IH. intros x Hx. apply Hl. by right.
Qed.

(** The object with a hit that the loop visits last has the last word on
    the reticle, whatever happened to the objects before it. *)
Lemma turns_last_hit scene this o hit rest :
  meshes this !! id o = Some o →
  scene (raycaster this) o = hit :: rest →
  (∀ k m, meshes this !! k = Some m → (id o < k)%N →
     scene (raycaster this) m = [] ∧ k ∉ selected this) →
  let this' := (turns scene (for_in (meshes this)) this).1 in
  refocus (distance hit) this' = this' ∧ id o ∈ selected this'.
Proof.
  intros Ho Hhit Hlater.
  destruct (for_in_split _ _ _ Ho) as (l1 & l2 & Hl & _ & _ & Hlt & Hgt).
  assert (∀ j m, (j, m) ∈ l2 → meshes this !! j = Some m) as Hin2.
  { intros j m Hj. apply elem_of_for_in. rewrite Hl.
    apply elem_of_app. right. by right. }
  simpl. rewrite Hl, turns_app. simpl.
  set (s1 := (turns scene l1 this).1).
  destruct (turns_frame scene l1 this) as (_ & _ & _ & Hray1). fold s1 in Hray1.
  set (s2 := (turn scene (id o) o s1).1).
  destruct (turn_frame scene (id o) o s1) as (_ & _ & _ & Hray2). fold s2 in Hray2.
  assert (refocus (distance hit) s2 = s2) as Hset.
  { unfold s2, turn. rewrite Hray1, Hhit. by destruct (decide _). }
  assert (id o ∈ selected s2) as Hsel.
  { unfold s2. apply turn_selected. rewrite decide_True by done.
    by rewrite Hray1, Hhit. }
  rewrite turns_idle; [done|].
  intros j m Hj. pose proof (Hgt _ _ Hj) as Hjk.
  destruct (Hlater j m (Hin2 _ _ Hj) Hjk) as [Hmiss Hnot]. split.
  - by rewrite Hray2, Hray1.
  - unfold s2. rewrite turn_selected. rewrite decide_False by lia.
    unfold s1. rewrite turns_selected_other; [done|].
    intros Hin. apply list_elem_of_fmap in Hin as ([j' m'] & -> & Hin).
    apply Hlt in Hin. simpl in Hjk. lia.
Qed.

End CycleMore.

(** X1. After an update cycle from a reachable state the selected ids are
    exactly the registered ids whose object the ray hits. *)
Theorem update_selects_what_is_hit `{three : Three}
    (cam : Camera) (this : RayRenderer) (scene : Intersector) :
  reachable cam this →
  ∃ this' log,
    update scene this = Done tt this' log ∧
    ∀ k, k ∈ selected this' ↔
      ∃ m, meshes this !! k = Some m ∧ scene (raycaster this) m ≠ [].
Proof.
  intros Hr. destruct (reachable_invariant _ _ Hr) as [[Hs Hd] Hkey].
  eexists _, _. split; [by apply update_turns|].
  intros k. rewrite (turns_selected scene this k Hkey).
  destruct (meshes this !! k) as [m|] eqn:Hm.
  - split; [eauto|]. by intros (m' & [= <-] & Hhit).
  - split; [|by intros (m' & [=] & _)].
    intros Hk. apply Hs, elem_of_dom in Hk as [m Hk]. congruence.
Qed.

Lemma update_selects_what_is_hit_witness :
  reachable Double.cam0 Double.B_selected ∧
  ∃ this' log,
    update (Double.hits [(1%N, 2%R)]) Double.B_selected = Done tt this' log ∧
    ∀ k, k ∈ selected this' ↔
      ∃ m, meshes Double.B_selected !! k = Some m ∧
           Double.hits [(1%N, 2%R)] (raycaster Double.B_selected) m ≠ [].
Proof.
  split; [exact reachable_B_selected|].
  exact (update_selects_what_is_hit Double.cam0 Double.B_selected
           (Double.hits [(1%N, 2%R)]) reachable_B_selected).
Defined.

(** X2. Let the registered ids be array indices.  The log of an update
    cycle is then, entry by entry of the registry in ascending order of id,
    what the state at the start of the cycle calls for: for an object newly
    hit its [onSelect] call, if it has one, followed by the ['select']
    emission; for an object no longer hit its [onDeselect] call, if it has
    one, followed by the ['deselect'] emission; nothing for the others. *)
Theorem update_log_by_entry `{three : Three}
    (cam : Camera) (this : RayRenderer) (scene : Intersector) :
  reachable cam this →
  (∀ k, k ∈ dom (meshes this) → array_index k) →
  returns (update scene this) ∧
  log_of (update scene this) = for_in (meshes this) ≫= notifications scene this.
Proof.
  intros Hr _. destruct (reachable_invariant _ _ Hr) as [[Hs Hd] Hkey].
  rewrite update_turns by done. split; [done|]. simpl.
  apply turns_notifications, NoDup_for_in.
Qed.

Lemma update_log_by_entry_witness :
  reachable Double.cam0 Double.B_selected ∧
  (∀ k, k ∈ dom (meshes Double.B_selected) → array_index k) ∧
  returns (update (Double.hits [(1%N, 2%R)]) Double.B_selected) ∧
  log_of (update (Double.hits [(1%N, 2%R)]) Double.B_selected)
    = for_in (meshes Double.B_selected)
        ≫= notifications (Double.hits [(1%N, 2%R)]) Double.B_selected.
Proof.
  pose proof (array_index_A_B Double.B_selected eq_refl) as Hidx.
  split; [exact reachable_B_selected|].
  split; [exact Hidx|].
  exact (update_log_by_entry Double.cam0 Double.B_selected
           (Double.hits [(1%N, 2%R)]) reachable_B_selected Hidx).
Defined.

(** X3. An update cycle changes the selection, the reticle distance and
    the placement of reticle and beam, and nothing else: camera, registry,
    ray, stored position and orientation and the two visibility flags are
    as before. *)
Theorem update_frame `{three : Three}
    (cam : Camera) (this : RayRenderer) (scene : Intersector) :
  reachable cam this →
  let this' := state_of (update scene this) in
  camera this' = camera this ∧ meshes this' = meshes this ∧
  handlers this' = handlers this ∧ raycaster this' = raycaster this ∧
  position this' = position this ∧ orientation this' = orientation this ∧
  reticle_visible this' = reticle_visible this ∧
  ray_visible this' = ray_visible this.
Proof.
  intros Hr. destruct (reachable_invariant _ _ Hr) as [[Hs Hd] Hkey].
  cbv zeta. rewrite update_turns by done. simpl.
  destruct (turns_frame scene (for_in (meshes this)) this) as (-> & -> & -> & ->).
  destruct (turns_frame_pose scene (for_in (meshes this)) this)
    as (-> & -> & -> & ->).
  done.
Qed.

Lemma update_frame_witness :
  reachable Double.cam0 Double.B_selected ∧
  let this' := state_of (update (Double.hits [(1%N, 2%R)]) Double.B_selected) in
  camera this' = camera Double.B_selected ∧
  meshes this' = meshes Double.B_selected ∧
  handlers this' = handlers Double.B_selected ∧
  raycaster this' = raycaster Double.B_selected ∧
  position this' = position Double.B_selected ∧
  orientation this' = orientation Double.B_selected ∧
  reticle_visible this' = reticle_visible Double.B_selected ∧
  ray_visible this' = ray_visible Double.B_selected.
Proof.
  split; [exact reachable_B_selected|].
  exact (update_frame Double.cam0 Double.B_selected
           (Double.hits [(1%N, 2%R)]) reachable_B_selected).
Defined.

(** X4. An update cycle in which the ray hits no registered object and no
    registered object is selected does nothing at all: same state, empty
    log - the reticle stays where the last cycle or setter left it. *)
Theorem update_idle `{three : Three}
    (cam : Camera) (this : RayRenderer) (scene : Intersector) :
  reachable cam this →
  (∀ k m, meshes this !! k = Some m →
     scene (raycaster this) m = [] ∧ k ∉ selected this) →
  update scene this = Done tt this [].
Proof.
  intros Hr Hidle. destruct (reachable_invariant _ _ Hr) as [[Hs Hd] Hkey].
  rewrite update_turns by done. rewrite turns_idle; [done|].
  intros j m Hj. apply Hidle. by apply elem_of_for_in.
Qed.

Lemma update_idle_witness :
  reachable Double.cam0 Double.registered ∧
  (∀ k m, meshes Double.registered !! k = Some m →
     Double.hits [] (raycaster Double.registered) m = [] ∧
     k ∉ selected Double.registered) ∧
  update (Double.hits []) Double.registered = Done tt Double.registered [].
Proof.
  assert (∀ k m, meshes Double.registered !! k = Some m →
     Double.hits [] (raycaster Double.registered) m = [] ∧
     k ∉ selected Double.registered) as Hidle.
  { intros k m _. split; [reflexivity|].
    change (k ∉ (∅ : gset N)). set_solver. }
  split; [exact reachable_registered|].
  split; [exact Hidle|].
  exact (update_idle Double.cam0 Double.registered (Double.hits [])
           reachable_registered Hidle).
Defined.

(** X5. A second update cycle on an unchanged scene is silent: it invokes
    no callback, emits nothing, and leaves the selection as the first cycle
    made it. *)
Theorem update_again_is_silent `{three : Three}
    (cam : Camera) (this : RayRenderer) (scene : Intersector) :
  reachable cam this →
  let first := state_of (update scene this) in
  returns (update scene first) ∧
  log_of (update scene first) = [] ∧
  selected (state_of (update scene first)) = selected first.
Proof.
  intros Hr. cbv zeta. set (first := state_of (update scene this)).
  assert (reachable cam first) as Hr1 by apply (reachable_call cam (Update scene) this Hr).
  destruct (reachable_invariant _ _ Hr) as [[Hs Hd] Hkey].
  destruct (reachable_invariant _ _ Hr1) as [[Hs1 Hd1] Hkey1].
  assert (meshes first = meshes this ∧ raycaster first = raycaster this)
    as [Hm Hray].
  { unfold first. rewrite update_turns by done. simpl.
    by destruct (turns_frame scene (for_in (meshes this)) this) as (_ & -> & _ & ->). }
  assert (∀ k m, meshes first !! k = Some m →
            (k ∈ selected first ↔ scene (raycaster first) m ≠ [])) as Hsel.
  { intros k m Hk. unfold first at 1. rewrite update_turns by done. simpl.
    rewrite (turns_selected scene this k Hkey).
    rewrite Hm in Hk. by rewrite Hk, Hray. }
  rewrite update_turns by done. simpl. split; [done|]. split.
  - rewrite turns_notifications by apply NoDup_for_in.
    apply bind_all_nil. intros [k m] Hk. apply elem_of_for_in in Hk.
    unfold notifications. simpl.
    rewrite (bool_decide_ext _ _ (Hsel k m Hk)).
    by destruct (bool_decide _).
  - apply set_eq. intros k. rewrite (turns_selected scene first k Hkey1).
    destruct (meshes first !! k) as [m|] eqn:Hk; [|done].
    symmetry. by apply Hsel.
Qed.

Lemma update_again_is_silent_witness :
  reachable Double.cam0 Double.B_selected ∧
  let first := state_of (update (Double.hits [(1%N, 2%R)]) Double.B_selected) in
  returns (update (Double.hits [(1%N, 2%R)]) first) ∧
  log_of (update (Double.hits [(1%N, 2%R)]) first) = [] ∧
  selected (state_of (update (Double.hits [(1%N, 2%R)]) first)) = selected first.
Proof.
  split; [exact reachable_B_selected|].
  exact (update_again_is_silent Double.cam0 Double.B_selected
           (Double.hits [(1%N, 2%R)]) reachable_B_selected).
Defined.

(** X6. Several objects may be hit in one cycle; the reticle follows the
    one visited last.  Let the registered ids be array indices, so that
    the loop visits them in ascending order.  If the ray hits a registered
    object at nearest distance D and every registered object with a larger
    id is neither hit nor selected, the cycle ends with the object
    selected, [reticleDistance] at D and the reticle at
    origin + direction * D - whatever is hit or deselected among the
    smaller ids. *)
Theorem update_last_hit_wins `{three : Three}
    (cam : Camera) (this : RayRenderer) (scene : Intersector)
    (o : Object3D) (hit : Intersection) (rest : list Intersection) :
  reachable cam this →
  (∀ k, k ∈ dom (meshes this) → array_index k) →
  meshes this !! id o = Some o →
  scene (raycaster this) o = hit :: rest →
  (∀ k m, meshes this !! k = Some m → (id o < k)%N →
     scene (raycaster this) m = [] ∧ k ∉ selected this) →
  ∃ this' log,
    update scene this = Done tt this' log ∧
    id o ∈ selected this' ∧
    reticleDistance this' = distance hit ∧
    reticle_position this' =
      Vector3.add (origin (raycaster this))
        (Vector3.multiplyScalar (direction (raycaster this)) (distance hit)).
Proof.
  intros Hr _ Ho Hhit Hlater.
  destruct (reachable_invariant _ _ Hr) as [[_ Hd] Hkey].
  eexists _, _. split; [by apply update_turns|].
  destruct (turns_frame scene (for_in (meshes this)) this) as (_ & _ & _ & Hray).
  destruct (turns_last_hit scene this o hit rest Ho Hhit Hlater) as [Hset Hsel].
  split; [done|].
  destruct (settled_fields _ _ Hset) as (Hdist & Hpos & _).
  rewrite Hray in Hpos. done.
Qed.

Lemma update_last_hit_wins_witness :
  reachable Double.cam0 Double.A_selected ∧
  (∀ k, k ∈ dom (meshes Double.A_selected) → array_index k) ∧
  meshes Double.A_selected !! id Double.B = Some Double.B ∧
  Double.hits [(1%N, 2%R); (2%N, 5%R)] (raycaster Double.A_selected) Double.B
    = mkIntersection 5 :: [] ∧
  (∀ k m, meshes Double.A_selected !! k = Some m → (id Double.B < k)%N →
     Double.hits [(1%N, 2%R); (2%N, 5%R)] (raycaster Double.A_selected) m = [] ∧
     k ∉ selected Double.A_selected) ∧
  ∃ this' log,
    update (Double.hits [(1%N, 2%R); (2%N, 5%R)]) Double.A_selected
      = Done tt this' log ∧
    id Double.B ∈ selected this' ∧
    reticleDistance this' = distance (mkIntersection 5) ∧
    reticle_position this' =
      Vector3.add (origin (raycaster Double.A_selected))
        (Vector3.multiplyScalar (direction (raycaster Double.A_selected))
           (distance (mkIntersection 5))).
Proof.
  assert (∀ k m, meshes Double.A_selected !! k = Some m → (id Double.B < k)%N →
     Double.hits [(1%N, 2%R); (2%N, 5%R)] (raycaster Double.A_selected) m = [] ∧
     k ∉ selected Double.A_selected) as Hlater.
  { intros k m Hm Hlt. exfalso.
    change (meshes Double.A_selected)
      with (<[2%N:=Double.B]> (<[1%N:=Double.A]> (∅ : gmap N Object3D))) in Hm.
    simpl in Hlt.
    apply lookup_insert_Some in Hm as [[<- _]|[_ Hm]]; [lia|].
    apply lookup_insert_Some in Hm as [[<- _]|[_ Hm]]; [lia|].
    by rewrite lookup_empty in Hm. }
  pose proof (array_index_A_B Double.A_selected eq_refl) as Hidx.
  split; [exact reachable_A_selected|].
  split; [exact Hidx|].
  split; [reflexivity|].
  split; [reflexivity|].
  split; [exact Hlater|].
  exact (update_last_hit_wins Double.cam0 Double.A_selected
           (Double.hits [(1%N, 2%R); (2%N, 5%R)]) Double.B (mkIntersection 5) []
           reachable_A_selected Hidx eq_refl eq_refl Hlater).
Defined.

(** X7. A deselect late in the loop can leave the reticle at the default
    distance although an object is hit; one more cycle on the same scene
    mends it.  When the ray hits one registered object only, at nearest
    distance D, the second of two cycles on that scene ends with
    [reticleDistance] at D and the reticle at origin + direction * D. *)
Theorem second_cycle_focuses_sole_hit `{three : Three}
    (cam : Camera) (this : RayRenderer) (scene : Intersector)
    (o : Object3D) (hit : Intersection) (rest : list Intersection) :
  reachable cam this →
  meshes this !! id o = Some o →
  scene (raycaster this) o = hit :: rest →
  (∀ k m, meshes this !! k = Some m → m ≠ o → scene (raycaster this) m = []) →
  let first := state_of (update scene this) in
  ∃ this' log,
    update scene first = Done tt this' log ∧
    reticleDistance this' = distance hit ∧
    reticle_position this' =
      Vector3.add (origin (raycaster this))
        (Vector3.multiplyScalar (direction (raycaster this)) (distance hit)).
Proof.
  intros Hr Ho Hhit Hsole. cbv zeta. set (first := state_of (update scene this)).
  assert (reachable cam first) as Hr1 by apply (reachable_call cam (Update scene) this Hr).
  destruct (reachable_invariant _ _ Hr) as [[Hs Hd] Hkey].
  destruct (reachable_invariant _ _ Hr1) as [[Hs1 Hd1] Hkey1].
  assert (meshes first = meshes this ∧ raycaster first = raycaster this)
    as [Hm Hray].
  { unfold first. rewrite update_turns by done. simpl.
    by destruct (turns_frame scene (for_in (meshes this)) this) as (_ & -> & _ & ->). }
  eexists _, _. split; [by apply update_turns|].
  destruct (turns_frame scene (for_in (meshes first)) first) as (_ & _ & _ & Hray2).
  destruct (turns_last_hit scene first o hit rest) as [Hset _].
  - by rewrite Hm.
  - by rewrite Hray.
  - intros k m Hk Hlt. rewrite Hm in Hk.
    assert (m ≠ o) as Hne by (intros ->; apply Hkey in Hk; lia).
    split; [rewrite Hray; by apply (Hsole k)|].
    unfold first. rewrite update_turns by done. simpl.
    rewrite (turns_selected scene this k Hkey), Hk.
    rewrite (Hsole k m Hk Hne). by intros [].
  - destruct (settled_fields _ _ Hset) as (Hdist & Hpos & _).
    rewrite Hray2, Hray in Hpos. done.
Qed.

Lemma second_cycle_focuses_sole_hit_witness :
  reachable Double.cam0 Double.B_selected ∧
  meshes Double.B_selected !! id Double.A = Some Double.A ∧
  Double.hits [(1%N, 2%R)] (raycaster Double.B_selected) Double.A
    = mkIntersection 2 :: [] ∧
  (∀ k m, meshes Double.B_selected !! k = Some m → m ≠ Double.A →
     Double.hits [(1%N, 2%R)] (raycaster Double.B_selected) m = []) ∧
  let first := state_of (update (Double.hits [(1%N, 2%R)]) Double.B_selected) in
  ∃ this' log,
    update (Double.hits [(1%N, 2%R)]) first = Done tt this' log ∧
    reticleDistance this' = distance (mkIntersection 2) ∧
    reticle_position this' =
      Vector3.add (origin (raycaster Double.B_selected))
        (Vector3.multiplyScalar (direction (raycaster Double.B_selected))
           (distance (mkIntersection 2))).
Proof.
  assert (∀ k m, meshes Double.B_selected !! k = Some m → m ≠ Double.A →
     Double.hits [(1%N, 2%R)] (raycaster Double.B_selected) m = []) as Hsole.
  { intros k m Hm Hne.
    change (meshes Double.B_selected)
      with (<[2%N:=Double.B]> (<[1%N:=Double.A]> (∅ : gmap N Object3D))) in Hm.
    apply lookup_insert_Some in Hm as [[_ <-]|[_ Hm]]; [reflexivity|].
    apply lookup_insert_Some in Hm as [[_ <-]|[_ Hm]]; [done|].
    by rewrite lookup_empty in Hm. }
  split; [exact reachable_B_selected|].
  split; [reflexivity|].
  split; [reflexivity|].
  split; [exact Hsole|].
  exact (second_cycle_focuses_sole_hit Double.cam0 Double.B_selected
           (Double.hits [(1%N, 2%R)]) Double.A (mkIntersection 2) []
           reachable_B_selected eq_refl eq_refl Hsole).
Defined.

(** ** The selected object *)

Section Selected.
Context `{three : Three}.

Lemma scan_selected_count this ids count mesh :
  (scan_selected this ids count mesh).1 = count + length ids.
Proof.
  revert count mesh. induction ids as [|k ids IH]; intros count mesh; simpl; [lia|].
  rewrite IH. lia.
Qed.

Lemma scan_selected_last this ids k count mesh :
  (scan_selected this (ids ++ [k]) count mesh).2 = meshes this !! k.
Proof.
  revert count mesh. induction ids as [|j ids IH]; intros count mesh; simpl; [done|].
  apply IH.
Qed.

Lemma length_for_in_keys (s : gset N) : length (for_in_keys s) = size s.
Proof. unfold for_in_keys. by rewrite merge_sort_Permutation. Qed.

Lemma elem_of_for_in_keys (s : gset N) k : k ∈ for_in_keys s ↔ k ∈ s.
Proof. unfold for_in_keys. rewrite merge_sort_Permutation. apply elem_of_elements. Qed.

(** The enumeration of a set that has a largest element ends with it. *)
Lemma for_in_keys_last (s : gset N) k :
  k ∈ s → (∀ j, j ∈ s → (j ≤ k)%N) →
  ∃ ids, for_in_keys s = ids ++ [k].
Proof.
  intros Hk Hmax.
  assert (StronglySorted N.le (for_in_keys s)) as Hsorted.
  { apply StronglySorted_merge_sort; apply _. }
  assert (∀ j, j ∈ for_in_keys s ↔ j ∈ s) as Hin
    by (intros j; apply elem_of_for_in_keys).
  destruct (for_in_keys s) as [|x l _] using rev_ind.
  { apply Hin in Hk. by apply elem_of_nil in Hk. }
  exists l. f_equal. f_equal.
  assert (x ∈ s) as Hx.
  { apply Hin. apply elem_of_app. right. left. }
  apply Hmax in Hx.
  apply Hin in Hk.
  apply elem_of_app in Hk as [Hk|Hk].
  - apply StronglySorted_app in Hsorted as (H12 & _ & _).
    specialize (H12 k x Hk (list_elem_of_here _ _)). lia.
  - apply list_elem_of_singleton in Hk. done.
Qed.

End Selected.

Lemma getSelectedMesh_eval `{three : Three} (this : RayRenderer) :
  getSelectedMesh this =
    Done (scan_selected this (for_in_keys (selected this)) 0 None).2 this
      (if bool_decide (1 < size (selected this))
       then [ConsoleWarn "More than one mesh selected."] else []).
Proof.
  unfold getSelectedMesh, bind, get.
  pose proof (scan_selected_count this (for_in_keys (selected this)) 0 None) as Hc.
  rewrite length_for_in_keys in Hc.
  destruct (scan_selected _ _ _ _) as [count mesh]. simpl in *. subst count.
  by destruct (bool_decide _).
Qed.

(** X8. Let the selected ids be array indices, so that the loop of
    [getSelectedMesh] visits them in ascending order.  [getSelectedMesh]
    changes nothing.  It returns [null] when no id is selected and
    otherwise whatever [meshes] holds under the largest selected id, the
    last one the loop visits; it warns on the console exactly when more
    than one id is selected. *)
Theorem getSelectedMesh_returns_largest `{three : Three} (this : RayRenderer) :
  (∀ k, k ∈ selected this → array_index k) →
  ∃ mesh,
    getSelectedMesh this =
      Done mesh this
        (if bool_decide (1 < size (selected this))
         then [ConsoleWarn "More than one mesh selected."] else []) ∧
    (selected this = ∅ → mesh = None) ∧
    (∀ k, k ∈ selected this → (∀ j, j ∈ selected this → (j ≤ k)%N) →
       mesh = meshes this !! k).
Proof.
  intros _. eexists. split; [apply getSelectedMesh_eval|]. split.
  - intros ->. by rewrite for_in_keys_empty.
  - intros k Hk Hmax. destruct (for_in_keys_last _ k Hk Hmax) as [ids ->].
    apply scan_selected_last.
Qed.

Lemma getSelectedMesh_returns_largest_witness :
  (∀ k, k ∈ selected (after (Update (Double.hits [(1%N, 2%R); (2%N, 5%R)]))
                        Double.registered) → array_index k) ∧
  ∃ mesh,
    getSelectedMesh (after (Update (Double.hits [(1%N, 2%R); (2%N, 5%R)]))
                       Double.registered) =
      Done mesh (after (Update (Double.hits [(1%N, 2%R); (2%N, 5%R)]))
                   Double.registered)
        (if bool_decide
              (1 < size (selected
                           (after (Update (Double.hits [(1%N, 2%R); (2%N, 5%R)]))
                              Double.registered)))
         then [ConsoleWarn "More than one mesh selected."] else []) ∧
    (selected (after (Update (Double.hits [(1%N, 2%R); (2%N, 5%R)]))
                 Double.registered) = ∅ → mesh = None) ∧
    (∀ k, k ∈ selected (after (Update (Double.hits [(1%N, 2%R); (2%N, 5%R)]))
                          Double.registered) →
       (∀ j, j ∈ selected (after (Update (Double.hits [(1%N, 2%R); (2%N, 5%R)]))
                             Double.registered) → (j ≤ k)%N) →
       mesh = meshes (after (Update (Double.hits [(1%N, 2%R); (2%N, 5%R)]))
                        Double.registered) !! k).
Proof.
  assert (∀ k, k ∈ selected (after (Update (Double.hits [(1%N, 2%R); (2%N, 5%R)]))
                               Double.registered) → array_index k) as Hidx.
  { intros k Hk.
    assert (reachable Double.cam0
              (after (Update (Double.hits [(1%N, 2%R); (2%N, 5%R)]))
                 Double.registered)) as Hr
      by apply reachable_call, reachable_registered.
    destruct (reachable_invariant _ _ Hr) as [[Hs _] _].
    apply (array_index_A_B
             (after (Update (Double.hits [(1%N, 2%R); (2%N, 5%R)]))
                Double.registered) eq_refl), Hs, Hk. }
  split; [exact Hidx|].
  exact (getSelectedMesh_returns_largest _ Hidx).
Defined.

(** X9. In a state the host can reach, [getSelectedMesh] returns [null]
    only when nothing is selected, and otherwise a registered object whose
    id is selected. *)
Theorem getSelectedMesh_is_selected `{three : Three}
    (cam : Camera) (this : RayRenderer) :
  reachable cam this →
  ∃ mesh log,
    getSelectedMesh this = Done mesh this log ∧
    (mesh = None ↔ selected this = ∅) ∧
    (∀ o, mesh = Some o →
       id o ∈ selected this ∧ meshes this !! id o = Some o).
Proof.
  intros Hr. destruct (reachable_invariant _ _ Hr) as [[Hs Hd] Hkey].
  eexists _, _. split; [apply getSelectedMesh_eval|].
  assert (∀ j, j ∈ for_in_keys (selected this) ↔ j ∈ selected this) as Hin
    by (intros j; apply elem_of_for_in_keys).
  destruct (for_in_keys (selected this)) as [|x l _] using rev_ind.
  - assert (selected this = ∅) as He.
    { apply set_eq. intros j. rewrite <- Hin. set_solver. }
    split; [done|]. intros o Ho. discriminate Ho.
  - rewrite scan_selected_last.
    assert (x ∈ selected this) as Hx by (apply Hin, elem_of_app; right; left).
    pose proof (Hs _ Hx) as Hreg. apply elem_of_dom in Hreg as [o Ho].
    rewrite Ho. split.
    + split; [done|]. intros He. rewrite He in Hx. set_solver.
    + intros o' [= <-]. rewrite (Hkey _ _ Ho). done.
Qed.

Lemma getSelectedMesh_is_selected_witness :
  reachable Double.cam0 Double.A_selected ∧
  ∃ mesh log,
    getSelectedMesh Double.A_selected = Done mesh Double.A_selected log ∧
    (mesh = None ↔ selected Double.A_selected = ∅) ∧
    (∀ o, mesh = Some o →
       id o ∈ selected Double.A_selected ∧
       meshes Double.A_selected !! id o = Some o).
Proof.
  split; [exact reachable_A_selected|].
  exact (getSelectedMesh_is_selected Double.cam0 Double.A_selected
           reachable_A_selected).
Defined.

(** ** [remove], once more *)

(** What [remove] does in a state that keeps the registry invariant: at
    most a deselect of the object, without emission. *)
Lemma remove_consistent `{three : Three} (object : Object3D) (this : RayRenderer) :
  consistent this →
  remove object this =
    if decide (id object ∈ selected this)
    then Done tt (set_selected (λ s, s ∖ {[id object]}) this)
           match handlers this !! id object ≫= onDeselect with
           | Some f => [Invoke SlotDeselect f object]
           | None => []
           end
    else Done tt this [].
Proof.
  intros [Hs Hd].
  destruct (meshes this !! id object) as [m|] eqn:Hm.
  - assert (is_Some (handlers this !! id object)) as [h Hh].
    { apply elem_of_dom. rewrite <- Hd. apply elem_of_dom. eauto. }
    erewrite remove_registered by eauto. by rewrite Hh.
  - assert (id object ∉ selected this) as Hn.
    { intros Hin. apply Hs, elem_of_dom in Hin. rewrite Hm in Hin. by destruct Hin. }
    assert (handlers this !! id object = None) as Hh.
    { apply not_elem_of_dom. rewrite <- Hd. by apply not_elem_of_dom. }
    rewrite remove_unregistered, decide_False by done.
    f_equal. destruct this; unfold set_handlers, set_meshes; simpl in *.
    by rewrite !delete_id.
Qed.

(** X10. [remove] is silent and leaves the reticle alone: from a reachable
    state it returns, the only thing it can do to the host is one
    [onDeselect] call for the object - it never emits ['deselect'] - and,
    unlike the deselect of an update cycle, it does not put the reticle
    back: ray, reticle distance, reticle and beam are as before. *)
Theorem remove_is_silent_and_still `{three : Three}
    (cam : Camera) (this : RayRenderer) (object : Object3D) :
  reachable cam this →
  let r := remove object this in
  returns r ∧
  (∀ e, e ∈ log_of r → ∃ f, e = Invoke SlotDeselect f object) ∧
  length (log_of r) ≤ 1 ∧
  raycaster (state_of r) = raycaster this ∧
  reticleDistance (state_of r) = reticleDistance this ∧
  reticle_position (state_of r) = reticle_position this ∧
  ray_scale_y (state_of r) = ray_scale_y this ∧
  ray_rotation (state_of r) = ray_rotation this ∧
  ray_position (state_of r) = ray_position this.
Proof.
  intros Hr. destruct (reachable_invariant _ _ Hr) as [Hc _].
  cbv zeta. rewrite remove_consistent by done.
  destruct (decide _) as [Hs|Hs]; simpl.
  - destruct (handlers this !! id object ≫= onDeselect) as [f|]; simpl.
    + split; [done|]. split.
      { intros ev Hev. apply list_elem_of_singleton in Hev. eauto. }
      split; [lia|done].
    + split; [done|]. split.
      { intros ev Hev. by apply elem_of_nil in Hev. }
      split; [lia|done].
  - split; [done|]. split.
    { intros ev Hev. by apply elem_of_nil in Hev. }
    split; [lia|done].
Qed.

Lemma remove_is_silent_and_still_witness :
  reachable Double.cam0 Double.A_selected ∧
  let r := remove Double.A Double.A_selected in
  returns r ∧
  (∀ e, e ∈ log_of r → ∃ f, e = Invoke SlotDeselect f Double.A) ∧
  length (log_of r) ≤ 1 ∧
  raycaster (state_of r) = raycaster Double.A_selected ∧
  reticleDistance (state_of r) = reticleDistance Double.A_selected ∧
  reticle_position (state_of r) = reticle_position Double.A_selected ∧
  ray_scale_y (state_of r) = ray_scale_y Double.A_selected ∧
  ray_rotation (state_of r) = ray_rotation Double.A_selected ∧
  ray_position (state_of r) = ray_position Double.A_selected.
Proof.
  split; [exact reachable_A_selected|].
  exact (remove_is_silent_and_still Double.cam0 Double.A_selected Double.A
           reachable_A_selected).
Defined.

(** X11. Removing twice is removing once: from a reachable state a second
    [remove] of the same object changes nothing and calls nothing, so
    [onDeselect] is not invoked again. *)
Theorem remove_twice `{three : Three}
    (cam : Camera) (this : RayRenderer) (object : Object3D) :
  reachable cam this →
  let once := state_of (remove object this) in
  remove object once = Done tt once [].
Proof.
  intros Hr. cbv zeta. set (once := state_of (remove object this)).
  assert (reachable cam once) as Hr1
    by apply (reachable_call cam (Remove object) this Hr).
  destruct (reachable_invariant _ _ Hr) as [Hc _].
  destruct (reachable_invariant _ _ Hr1) as [Hc1 _].
  rewrite remove_consistent by done. rewrite decide_False; [done|].
  unfold once. rewrite remove_consistent by done.
  destruct (decide _); simpl; set_solver.
Qed.

Lemma remove_twice_witness :
  reachable Double.cam0 Double.A_selected ∧
  let once := state_of (remove Double.A Double.A_selected) in
  remove Double.A once = Done tt once [].
Proof.
  split; [exact reachable_A_selected|].
  exact (remove_twice Double.cam0 Double.A_selected Double.A reachable_A_selected).
Defined.

(** X12. A removed object stays in the registry, so the next update cycle
    picks it up again.  If a registered, selected object is removed while
    the ray still hits it, the cycle that follows selects it again and
    emits ['select'] for it, although no ['deselect'] was emitted in
    between. *)
Theorem update_after_remove_selects_again `{three : Three}
    (cam : Camera) (this : RayRenderer) (scene : Intersector) (o : Object3D) :
  reachable cam this →
  meshes this !! id o = Some o →
  id o ∈ selected this →
  scene (raycaster this) o ≠ [] →
  let removed := state_of (remove o this) in
  (id o ∉ selected removed) ∧
  firings o EmitDeselect (log_of (remove o this)) = 0 ∧
  returns (update scene removed) ∧
  firings o EmitSelect (log_of (update scene removed)) = 1 ∧
  id o ∈ selected (state_of (update scene removed)).
Proof.
  intros Hr Ho Hs Hhit. cbv zeta. set (removed := state_of (remove o this)).
  assert (reachable cam removed) as Hr1
    by apply (reachable_call cam (Remove o) this Hr).
  destruct (reachable_invariant _ _ Hr) as [Hc Hkey].
  destruct (reachable_invariant _ _ Hr1) as [Hc1 Hkey1].
  assert (removed = set_selected (λ s, s ∖ {[id o]}) this) as Hrem.
  { unfold removed. rewrite remove_consistent by done. by rewrite decide_True. }
  assert (id o ∉ selected removed) as Hn by (rewrite Hrem; simpl; set_solver).
  split; [done|]. split.
  { rewrite remove_consistent by done. rewrite decide_True by done. simpl.
    unfold firings. destruct (_ ≫= _); [|done].
    by erewrite view_cons_Some by apply classify_call_deselect. }
  rewrite update_turns by apply Hc1. simpl. split; [done|].
  assert (meshes removed !! id o = Some o) as Ho1 by (by rewrite Hrem).
  destruct (turns_view_one scene removed o Hkey1 Ho1) as [Hview Hflag].
  split.
  - unfold firings. rewrite Hview, turn_notifications.
    unfold notifications. simpl.
    rewrite (bool_decide_eq_false_2 _ Hn).
    rewrite bool_decide_eq_true_2 by (by rewrite Hrem). simpl.
    rewrite view_notify_select. by destruct (onSelect _).
  - apply Hflag. by rewrite Hrem.
Qed.

Lemma update_after_remove_selects_again_witness :
  reachable Double.cam0 Double.A_selected ∧
  meshes Double.A_selected !! id Double.A = Some Double.A ∧
  id Double.A ∈ selected Double.A_selected ∧
  Double.hits [(1%N, 2%R)] (raycaster Double.A_selected) Double.A ≠ [] ∧
  let removed := state_of (remove Double.A Double.A_selected) in
  (id Double.A ∉ selected removed) ∧
  firings Double.A EmitDeselect (log_of (remove Double.A Double.A_selected)) = 0 ∧
  returns (update (Double.hits [(1%N, 2%R)]) removed) ∧
  firings Double.A EmitSelect (log_of (update (Double.hits [(1%N, 2%R)]) removed)) = 1 ∧
  id Double.A ∈ selected (state_of (update (Double.hits [(1%N, 2%R)]) removed)).
Proof.
  assert (id Double.A ∈ selected Double.A_selected) as Hs.
  { change (1%N ∈ ({[1%N]} ∪ ∅ : gset N)). set_solver. }
  assert (Double.hits [(1%N, 2%R)] (raycaster Double.A_selected) Double.A ≠ [])
    as Hhit by done.
  split; [exact reachable_A_selected|].
  split; [reflexivity|].
  split; [exact Hs|].
  split; [exact Hhit|].
  exact (update_after_remove_selects_again Double.cam0 Double.A_selected
           (Double.hits [(1%N, 2%R)]) Double.A reachable_A_selected eq_refl Hs Hhit).
Defined.

(** ** Ray configuration, visibility and the derived visuals *)

Section Visuals.
Context `{three : Three}.

Lemma visuals_derived_refocus d this : visuals_derived (refocus d this).
Proof. by repeat split. Qed.

Lemma visuals_derived_turn scene k mesh this :
  visuals_derived this → visuals_derived (turn scene k mesh this).1.
Proof.
  intros Hv. unfold turn.
  destruct (scene _ _); destruct (decide _); simpl;
    done || apply visuals_derived_refocus.
Qed.

Lemma visuals_derived_turns scene l this :
  visuals_derived this → visuals_derived (turns scene l this).1.
Proof.
  revert this. induction l as [|[k mesh] l IH]; intros this Hv; simpl; [done|].
  by apply IH, visuals_derived_turn.
Qed.

(** [getSelectedMesh] leaves the state as it is. *)
Lemma same_registry_getSelectedMesh this :
  state_of (getSelectedMesh this) = this.
Proof. by rewrite getSelectedMesh_eval. Qed.

End Visuals.

(** X13. [setPosition(v)] stores [v], moves the origin of the ray to [v]
    and keeps its direction and the reticle distance; it returns with
    reticle and beam placed for the new ray, and [getOrigin] then returns
    [v].  Registry and selection are not touched. *)
Theorem setPosition_moves_origin `{three : Three}
    (this : RayRenderer) (v : Vector3) :
  ∃ this',
    setPosition v this = Done tt this' [] ∧
    position this' = v ∧
    raycaster this' = mkRay v (direction (raycaster this)) ∧
    getOrigin this' = Done v this' [] ∧
    getDirection this' = Done (direction (raycaster this)) this' [] ∧
    reticleDistance this' = reticleDistance this ∧
    visuals_derived this' ∧
    same_registry this this' ∧
    orientation this' = orientation this.
Proof. eexists. split; [reflexivity|]. by repeat split. Qed.

(** X14. The three setters write different parts of the ray state.
    [setPointer] replaces origin and direction by the ray three.js computes
    from the camera, whatever [setPosition] and [setOrientation] had set,
    but leaves the stored [position] and [orientation] as they were; a
    [setPosition] after it moves the origin only and keeps the direction of
    the pointer ray, and a [setOrientation] after it turns the direction
    only and keeps the origin of the pointer ray. *)
Theorem setters_compose `{three : Three}
    (this : RayRenderer) (p : Vector3) (q : Quaternion) (v : Vector2) :
  let posed := state_of (setOrientation q (state_of (setPosition p this))) in
  let pointed := state_of (setPointer v posed) in
  raycaster posed = mkRay p (applyQuaternion (V3 0 0 (-1)) q) ∧
  raycaster pointed = setFromCamera v (camera this) ∧
  position pointed = p ∧ orientation pointed = q ∧
  visuals_derived pointed ∧
  raycaster (state_of (setPosition p pointed))
    = mkRay p (direction (setFromCamera v (camera this))) ∧
  raycaster (state_of (setOrientation q pointed))
    = mkRay (origin (setFromCamera v (camera this)))
        (applyQuaternion (V3 0 0 (-1)) q).
Proof. by repeat split. Qed.

(** X15. The two visibility flags are written by their own setter and by
    nothing else: after any call from a reachable state, the reticle is
    visible as the call said if the call was [setReticleVisibility], and as
    before otherwise; likewise the beam and [setRayVisibility].  Selection
    and deselection never show or hide anything. *)
Theorem visibility_only_by_its_setter `{three : Three}
    (cam : Camera) (this : RayRenderer) (c : Call) :
  reachable cam this →
  reticle_visible (after c this) =
    match c with
    | SetReticleVisibility isVisible => isVisible
    | _ => reticle_visible this
    end ∧
  ray_visible (after c this) =
    match c with
    | SetRayVisibility isVisible => isVisible
    | _ => ray_visible this
    end.
Proof.
  intros Hr. destruct (reachable_invariant _ _ Hr) as [Hc _].
  destruct c; cbn [after]; try done.
  - rewrite remove_consistent by done. by destruct (decide _).
  - rewrite update_turns by apply Hc. simpl.
    by destruct (turns_frame_pose intersectObject (for_in (meshes this)) this)
      as (_ & _ & -> & ->).
  - by rewrite same_registry_getSelectedMesh.
Qed.

Lemma visibility_only_by_its_setter_witness :
  reachable Double.cam0 Double.A_selected ∧
  reticle_visible (after (Update (Double.hits [])) Double.A_selected) =
    match Update (three := Double.three) (Double.hits []) with
    | SetReticleVisibility isVisible => isVisible
    | _ => reticle_visible Double.A_selected
    end ∧
  ray_visible (after (Update (Double.hits [])) Double.A_selected) =
    match Update (three := Double.three) (Double.hits []) with
    | SetRayVisibility isVisible => isVisible
    | _ => ray_visible Double.A_selected
    end.
Proof.
  split; [exact reachable_A_selected|].
  exact (visibility_only_by_its_setter Double.cam0 Double.A_selected
           (Update (Double.hits [])) reachable_A_selected).
Defined.

(** X16. Reticle and beam are derived from the ray and the reticle
    distance: every ray setter leaves them so, and once they are so, no
    call from a reachable state breaks it. *)
Theorem visuals_stay_derived `{three : Three}
    (cam : Camera) (this : RayRenderer) (c : Call) :
  reachable cam this →
  visuals_derived this →
  visuals_derived (after c this) ∧
  (∀ (s : RayRenderer) v, visuals_derived (state_of (setPosition v s))) ∧
  (∀ (s : RayRenderer) q, visuals_derived (state_of (setOrientation q s))) ∧
  (∀ (s : RayRenderer) v, visuals_derived (state_of (setPointer v s))).
Proof.
  intros Hr Hv. destruct (reachable_invariant _ _ Hr) as [Hc _].
  split; [|by repeat split].
  destruct c; cbn [after]; try done; try (by repeat split).
  - rewrite remove_consistent by done. by destruct (decide _).
  - rewrite update_turns by apply Hc. simpl. by apply visuals_derived_turns.
  - by rewrite same_registry_getSelectedMesh.
Qed.

Lemma visuals_stay_derived_witness :
  reachable Double.cam0 Double.A_selected ∧
  visuals_derived Double.A_selected ∧
  visuals_derived (after (Update (Double.hits [])) Double.A_selected) ∧
  (∀ (s : @RayRenderer Double.three) v,
     visuals_derived (state_of (setPosition v s))) ∧
  (∀ (s : @RayRenderer Double.three) q,
     visuals_derived (state_of (setOrientation q s))) ∧
  (∀ (s : @RayRenderer Double.three) v,
     visuals_derived (state_of (setPointer v s))).
Proof.
  assert (visuals_derived Double.A_selected) as Hv by (by repeat split).
  split; [exact reachable_A_selected|].
  split; [exact Hv|].
  exact (visuals_stay_derived Double.cam0 Double.A_selected
           (Update (Double.hits [])) reachable_A_selected Hv).
Defined.

(** X17. The reticle distance moves in update cycles only: after any other
    call from a reachable state it is what it was - a new ray keeps the
    focus distance of the old one until the next cycle. *)
Theorem reticleDistance_only_by_update `{three : Three}
    (cam : Camera) (this : RayRenderer) (c : Call) :
  reachable cam this →
  (∀ scene, c ≠ Update scene) →
  reticleDistance (after c this) = reticleDistance this.
Proof.
  intros Hr Hc0. destruct (reachable_invariant _ _ Hr) as [Hc _].
  destruct c; cbn [after]; try done.
  - rewrite remove_consistent by done. by destruct (decide _).
  - by destruct (Hc0 intersectObject).
  - by rewrite same_registry_getSelectedMesh.
Qed.

Lemma reticleDistance_only_by_update_witness :
  reachable Double.cam0 Double.A_selected ∧
  (∀ scene, SetPointer (three := Double.three) (V2 1 1) ≠ Update scene) ∧
  reticleDistance (after (SetPointer (V2 1 1)) Double.A_selected)
    = reticleDistance Double.A_selected.
Proof.
  assert (∀ scene, SetPointer (three := Double.three) (V2 1 1) ≠ Update scene)
    as Hne by done.
  split; [exact reachable_A_selected|].
  split; [exact Hne|].
  exact (reticleDistance_only_by_update Double.cam0 Double.A_selected
           (SetPointer (V2 1 1)) reachable_A_selected Hne).
Defined.

(** ** Registration, construction and the query, in use *)

(** X18. Handlers given to [add] are the ones the next cycle uses.  After
    [add(o, handlers)] from a reachable state in which the id of [o] is not
    selected, an update cycle whose ray hits [o] calls the [onSelect] of
    the record just stored, if it has one, emits ['select'] for [o] and
    leaves [o] selected. *)
Theorem add_then_update_notifies `{three : Three}
    (cam : Camera) (this : RayRenderer) (scene : Intersector)
    (o : Object3D) (opt_handlers : option Handlers) :
  reachable cam this →
  id o ∉ selected this →
  scene (raycaster this) o ≠ [] →
  let added := state_of (add o opt_handlers this) in
  returns (update scene added) ∧
  (∀ f, onSelect (default no_handlers opt_handlers) = Some f →
     Invoke SlotSelect f o ∈ log_of (update scene added)) ∧
  Emit "select" o ∈ log_of (update scene added) ∧
  id o ∈ selected (state_of (update scene added)).
Proof.
  intros Hr Hn Hhit. cbv zeta. set (added := state_of (add o opt_handlers this)).
  assert (reachable cam added) as Hr1
    by apply (reachable_call cam (Add o opt_handlers) this Hr).
  destruct (reachable_invariant _ _ Hr1) as [Hc1 Hkey1].
  assert (meshes added !! id o = Some o) as Ho
    by (unfold added; rewrite add_done; simpl; apply lookup_insert_eq).
  assert (handlers added !! id o = Some (default no_handlers opt_handlers)) as Hh
    by (unfold added; rewrite add_done; simpl; apply lookup_insert_eq).
  assert (raycaster added = raycaster this ∧ selected added = selected this)
    as [Hray Hsel] by (unfold added; by rewrite add_done).
  rewrite update_turns by apply Hc1. simpl. split; [done|].
  rewrite turns_notifications by apply NoDup_for_in.
  assert (notifications scene added (id o, o) =
            notify SlotSelect (onSelect (default no_handlers opt_handlers))
              "select" o) as Hnote.
  { unfold notifications. cbn [fst snd]. rewrite Hh, Hray, Hsel.
    rewrite bool_decide_eq_true_2 by done.
    by rewrite (bool_decide_eq_false_2 _ Hn). }
  assert (∀ e, e ∈ notify SlotSelect (onSelect (default no_handlers opt_handlers))
                     "select" o →
               e ∈ for_in (meshes added) ≫= notifications scene added) as Hin.
  { intros e He. apply list_elem_of_bind. exists (id o, o).
    rewrite Hnote. split; [done|]. by apply elem_of_for_in. }
  split; [|split].
  - intros f Hf. apply Hin. rewrite Hf. left.
  - apply Hin. unfold notify. destruct (onSelect _); [right; left|left].
  - apply (turns_selected scene added (id o) Hkey1). by rewrite Ho, Hray.
Qed.

Lemma add_then_update_notifies_witness :
  reachable Double.cam0 Double.B_selected ∧
  (id Double.A ∉ selected Double.B_selected) ∧
  Double.hits [(1%N, 2%R)] (raycaster Double.B_selected) Double.A ≠ [] ∧
  let added := state_of (add Double.A (Some Double.spies) Double.B_selected) in
  returns (update (Double.hits [(1%N, 2%R)]) added) ∧
  (∀ f, onSelect (default no_handlers (Some Double.spies)) = Some f →
     Invoke SlotSelect f Double.A ∈ log_of (update (Double.hits [(1%N, 2%R)]) added)) ∧
  Emit "select" Double.A ∈ log_of (update (Double.hits [(1%N, 2%R)]) added) ∧
  id Double.A ∈ selected (state_of (update (Double.hits [(1%N, 2%R)]) added)).
Proof.
  assert (id Double.A ∉ selected Double.B_selected) as Hn.
  { change (1%N ∉ ({[2%N]} ∪ ∅ : gset N)). set_solver. }
  assert (Double.hits [(1%N, 2%R)] (raycaster Double.B_selected) Double.A ≠ [])
    as Hhit by done.
  split; [exact reachable_B_selected|].
  split; [exact Hn|].
  split; [exact Hhit|].
  exact (add_then_update_notifies Double.cam0 Double.B_selected
           (Double.hits [(1%N, 2%R)]) Double.A (Some Double.spies)
           reachable_B_selected Hn Hhit).
Defined.

(** X19. The constructor sets [reticleDistance] to 3 but does not place
    anything: with a new raycaster that starts at the origin, the reticle
    of a fresh renderer sits at the origin and the beam has its unit
    length, which is not where [updateRaycaster_] would put them - and an
    update cycle of a fresh renderer changes nothing, so they stay there
    until a setter is called. *)
Theorem constructor_leaves_visuals_unplaced `{three : Three} (cam : Camera) :
  origin Raycaster_new = Vector3.zero →
  reticleDistance (constructor cam) = 3%R ∧
  reticle_position (constructor cam) = Vector3.zero ∧
  ray_scale_y (constructor cam) = 1%R ∧
  ¬ visuals_derived (constructor cam) ∧
  ∀ scene, update scene (constructor cam) = Done tt (constructor cam) [].
Proof.
  intros Horigin. repeat split.
  intros (Hpos & Hlen & _). simpl in Hpos, Hlen. rewrite Horigin in Hpos.
  unfold Vector3.add, Vector3.multiplyScalar, Vector3.zero, RETICLE_DISTANCE in Hpos.
  simpl in Hpos. injection Hpos as Hx Hy Hz.
  unfold Vector3.length, Vector3.multiplyScalar, RETICLE_DISTANCE in Hlen.
  simpl in Hlen.
  replace (vx (direction Raycaster_new)) with 0%R in Hlen by lra.
  replace (vy (direction Raycaster_new)) with 0%R in Hlen by lra.
  replace (vz (direction Raycaster_new)) with 0%R in Hlen by lra.
  replace (0 * 3 * (0 * 3) + 0 * 3 * (0 * 3) + 0 * 3 * (0 * 3))%R with 0%R
    in Hlen by lra.
  rewrite sqrt_0 in Hlen. lra.
Qed.

Lemma constructor_leaves_visuals_unplaced_witness :
  origin (Raycaster_new (Three := Double.three)) = Vector3.zero ∧
  reticleDistance (constructor Double.cam0) = 3%R ∧
  reticle_position (constructor Double.cam0) = Vector3.zero ∧
  ray_scale_y (constructor Double.cam0) = 1%R ∧
  ¬ visuals_derived (constructor Double.cam0) ∧
  ∀ scene, update scene (constructor Double.cam0) = Done tt (constructor Double.cam0) [].
Proof.
  split; [reflexivity|].
  exact (constructor_leaves_visuals_unplaced Double.cam0 eq_refl).
Defined.

(** X20. The query answers with the object the ray is on.  After an update
    cycle, from a reachable state, in which the ray hits one registered
    object only, [getSelectedMesh] returns that object and does not warn. *)
Theorem getSelectedMesh_after_sole_hit `{three : Three}
    (cam : Camera) (this : RayRenderer) (scene : Intersector) (o : Object3D) :
  reachable cam this →
  meshes this !! id o = Some o →
  scene (raycaster this) o ≠ [] →
  (∀ k m, meshes this !! k = Some m → m ≠ o → scene (raycaster this) m = []) →
  let this' := state_of (update scene this) in
  returns (update scene this) ∧
  getSelectedMesh this' = Done (Some o) this' [].
Proof.
  intros Hr Ho Hhit Hsole. cbv zeta.
  destruct (reachable_invariant _ _ Hr) as [[Hs Hd] Hkey].
  rewrite update_turns by done. simpl. split; [done|].
  set (this' := (turns scene (for_in (meshes this)) this).1).
  assert (selected this' = {[id o]}) as Hsel.
  { apply set_eq. intros k. unfold this'.
    rewrite (turns_selected scene this k Hkey), elem_of_singleton.
    destruct (meshes this !! k) as [m|] eqn:Hk.
    - destruct (decide (m = o)) as [->|Hne].
      + split; [intros _; symmetry; by apply Hkey|done].
      + rewrite (Hsole k m Hk Hne). split; [done|].
        intros ->. congruence.
    - split; [|intros ->; congruence].
      intros Hin. apply Hs, elem_of_dom in Hin as [m Hin]. congruence. }
  assert (meshes this' = meshes this) as Hm.
  { unfold this'. by destruct (turns_frame scene (for_in (meshes this)) this)
      as (_ & -> & _). }
  rewrite getSelectedMesh_eval, Hsel, size_singleton.
  destruct (for_in_keys_last {[id o]} (id o)) as [ids Hids]; [set_solver|set_solver|].
  rewrite Hids, scan_selected_last, Hm, Ho. done.
Qed.

Lemma getSelectedMesh_after_sole_hit_witness :
  reachable Double.cam0 Double.B_selected ∧
  meshes Double.B_selected !! id Double.A = Some Double.A ∧
  Double.hits [(1%N, 2%R)] (raycaster Double.B_selected) Double.A ≠ [] ∧
  (∀ k m, meshes Double.B_selected !! k = Some m → m ≠ Double.A →
     Double.hits [(1%N, 2%R)] (raycaster Double.B_selected) m = []) ∧
  let this' := state_of (update (Double.hits [(1%N, 2%R)]) Double.B_selected) in
  returns (update (Double.hits [(1%N, 2%R)]) Double.B_selected) ∧
  getSelectedMesh this' = Done (Some Double.A) this' [].
Proof.
  assert (Double.hits [(1%N, 2%R)] (raycaster Double.B_selected) Double.A ≠ [])
    as Hhit by done.
  assert (∀ k m, meshes Double.B_selected !! k = Some m → m ≠ Double.A →
     Double.hits [(1%N, 2%R)] (raycaster Double.B_selected) m = []) as Hsole.
  { intros k m Hm Hne.
    change (meshes Double.B_selected)
      with (<[2%N:=Double.B]> (<[1%N:=Double.A]> (∅ : gmap N Object3D))) in Hm.
    apply lookup_insert_Some in Hm as [[_ <-]|[_ Hm]]; [reflexivity|].
    apply lookup_insert_Some in Hm as [[_ <-]|[_ Hm]]; [done|].
    by rewrite lookup_empty in Hm. }
  split; [exact reachable_B_selected|].
  split; [reflexivity|].
  split; [exact Hhit|].
  split; [exact Hsole|].
  exact (getSelectedMesh_after_sole_hit Double.cam0 Double.B_selected
           (Double.hits [(1%N, 2%R)]) Double.A reachable_B_selected eq_refl
           Hhit Hsole).
Defined.
